(** * Hollow Host: the web client's command form and the combat engine's
      turn order and action economy

    The repository ships one program, [ui/static/js/main.js]: the submit
    handler of the command form.  [Module Client] embeds it: JavaScript
    strings as UTF-16 code units, the values [response.json()] can produce,
    the page and the network as an explicit world, and the handler as a
    program in a state-and-exception monad.

    The combat engine is described in the documents only.  [Module Engine]
    holds the part of it that the turn-order and action-economy properties
    need, each definition modelled from the specification's
    text. *)

From Stdlib Require Import ZArith NArith List String Ascii Bool Lia.
From stdpp Require Import base numbers list strings.
Import ListNotations.

Module Client.

Local Open Scope N_scope.

(** ** JavaScript strings *)

(** A JavaScript string is a sequence of 16-bit code units. *)
Definition jsstring : Type := list N.

(** The code units of an ASCII literal of the script. *)
Definition lit (s : string) : jsstring :=
  List.map N_of_ascii (list_ascii_of_string s).

Definition between (lo hi c : N) : bool := (lo <=? c) && (c <=? hi).

(** [String.prototype.trim] removes ECMAScript WhiteSpace and LineTerminator
    code points from both ends; all of them lie in the basic plane. *)
Definition is_space (c : N) : bool :=
  between 0x09 0x0D c || (c =? 0x20) || (c =? 0xA0) || (c =? 0x1680)
  || between 0x2000 0x200A c || (c =? 0x2028) || (c =? 0x2029)
  || (c =? 0x202F) || (c =? 0x205F) || (c =? 0x3000) || (c =? 0xFEFF).

Fixpoint trimStart (s : jsstring) : jsstring :=
  match s with
  | c :: rest => if is_space c then trimStart rest else s
  | [] => []
  end.

Definition trimEnd (s : jsstring) : jsstring := rev (trimStart (rev s)).

Definition trim (s : jsstring) : jsstring := trimEnd (trimStart s).

(** [!input] for a string: true exactly for the empty string. *)
Definition falsy_string (s : jsstring) : bool :=
  match s with [] => true | _ => false end.

(** ** encodeURIComponent *)

(** The characters [encodeURIComponent] leaves as they are:
    letters, digits and [- _ . ! ~ * ' ( )]. *)
Definition uri_unreserved (c : N) : bool :=
  between 0x41 0x5A c || between 0x61 0x7A c || between 0x30 0x39 c
  || (c =? 0x2D) || (c =? 0x5F) || (c =? 0x2E) || (c =? 0x21) || (c =? 0x7E)
  || (c =? 0x2A) || (c =? 0x27) || (c =? 0x28) || (c =? 0x29).

Definition is_lead_surrogate (c : N) : bool := between 0xD800 0xDBFF c.
Definition is_trail_surrogate (c : N) : bool := between 0xDC00 0xDFFF c.

Definition utf8 (cp : N) : list N :=
  if cp <? 0x80 then [cp]
  else if cp <? 0x800 then [0xC0 + cp / 64; 0x80 + cp mod 64]
  else if cp <? 0x10000 then
    [0xE0 + cp / 4096; 0x80 + (cp / 64) mod 64; 0x80 + cp mod 64]
  else
    [0xF0 + cp / 262144; 0x80 + (cp / 4096) mod 64;
     0x80 + (cp / 64) mod 64; 0x80 + cp mod 64].

Definition hex_digit (d : N) : ascii :=
  ascii_of_N (if d <? 10 then 0x30 + d else 0x41 + (d - 10)).

Definition percent (b : N) : string :=
  String "%" (String (hex_digit (b / 16)) (String (hex_digit (b mod 16)) EmptyString)).

Definition percent_all (bs : list N) : string :=
  fold_right (fun b acc => percent b ++ acc)%string EmptyString bs.

(** [encodeURIComponent s]: [None] stands for the URIError raised on a
    surrogate code unit that is not part of a pair. *)
Fixpoint encodeURIComponent (s : jsstring) : option string :=
  match s with
  | [] => Some EmptyString
  | c :: rest =>
    if uri_unreserved c then
      option_map (String (ascii_of_N c)) (encodeURIComponent rest)
    else if is_lead_surrogate c then
      match rest with
      | d :: rest' =>
        if is_trail_surrogate d then
          let cp := (c - 0xD800) * 0x400 + (d - 0xDC00) + 0x10000 in
          option_map (append (percent_all (utf8 cp))) (encodeURIComponent rest')
        else None
      | [] => None
      end
    else if is_trail_surrogate c then None
    else option_map (append (percent_all (utf8 c))) (encodeURIComponent rest)
  end.

(** ** Values of the script *)

(** What [response.json()] can produce.  A number is kept as the text that
    Number::toString gives it: the script never computes with a number, it
    can only show it. An object is the list of its own properties, each key
    once, as [JSON.parse] builds it. *)
#[warnings="-register-all"]
Inductive JSON : Type :=
| JNull
| JBool (b : bool)
| JNumber (text : jsstring)
| JString (s : jsstring)
| JArray (items : list JSON)
| JObject (props : list (jsstring * JSON)).

Inductive value : Type :=
| Undefined
| Json (j : JSON).

Inductive Exn : Type := TypeError | URIError | SyntaxError | DOMException.

Fixpoint own_property (props : list (jsstring * JSON)) (key : jsstring) : option JSON :=
  match props with
  | [] => None
  | (k, v) :: rest => if decide (k = key) then Some v else own_property rest key
  end.

(** [v.key] for a key that no built-in prototype defines, which is the case
    of the five the script reads: type, formatted, response, result and
    message.  Reading a property of [undefined] or [null] throws. *)
Definition get_property (v : value) (key : jsstring) : Exn + value :=
  match v with
  | Undefined | Json JNull => inl TypeError
  | Json (JObject props) =>
    inr (match own_property props key with Some j => Json j | None => Undefined end)
  | Json _ => inr Undefined
  end.

(** [v === 'lit'] *)
Definition strict_equals (v : value) (s : string) : bool :=
  match v with
  | Json (JString t) => bool_decide (t = lit s)
  | _ => false
  end.

(** ToString.  An array is joined with commas, [null] elements as empty
    text.  A parsed object has Object.prototype's toString unless it has an
    own property of that name, which then is not callable, and neither
    valueOf helps: a TypeError, [None] here. *)
Fixpoint to_string (j : JSON) : option jsstring :=
  match j with
  | JNull => Some (lit "null")
  | JBool b => Some (lit (if b then "true" else "false"))
  | JNumber text => Some text
  | JString s => Some s
  | JArray items =>
    (fix join (xs : list JSON) : option jsstring :=
       match xs with
       | [] => Some []
       | x :: rest =>
         let element := match x with JNull => Some [] | _ => to_string x end in
         match rest with
         | [] => element
         | _ :: _ =>
           match element, join rest with
           | Some e, Some r => Some (e ++ lit "," ++ r)
           | _, _ => None
           end
         end
       end) items
  | JObject props =>
    match own_property props (lit "toString") with
    | Some _ => None
    | None => Some (lit "[object Object]")
    end
  end.

(** The conversion the [textContent] setter applies (a nullable DOMString):
    [undefined] and [null] become the empty text. *)
Definition dom_string (v : value) : option jsstring :=
  match v with
  | Undefined | Json JNull => Some []
  | Json j => to_string j
  end.

(** ** The page, the network and the console *)

Record Message : Type := { className : string; textContent : jsstring }.

Record MessageLog : Type := { children : list Message; scrollTop : Z }.

Record Request : Type :=
  { url : string; method : string; headers : list (string * string); body : string }.

Record Response : Type := { json_body : Exn + JSON }.

(** The state one run of the handler can see or change.  An element the
    page does not have is [None] ([getElementById] and [querySelector]
    returned null).  A run is followed from the submit event to the
    settling of the promise the handler returns, with nothing else touching
    the page in between. *)
Record World : Type :=
  { defaultPrevented : bool;
    playerInput : option jsstring;
    messageLog : option MessageLog;
    requests : list Request;
    console : list Exn }.

(** What the handler cannot decide: how the server answers a request, how
    tall the layout makes the content of the log, and how far the log can
    be scrolled: [scrollHeight] less [clientHeight] for a box that
    scrolls, [0] for one that does not. *)
Record Env : Type :=
  { server : Request -> Exn + Response;
    scrollHeight : list Message -> Z;
    scrollTopMax : list Message -> Z }.

(** What [scrollTop] reads after [x] was assigned to it: the browser keeps
    the position within what the box can scroll. *)
Definition clamped (env : Env) (ms : list Message) (x : Z) : Z :=
  Z.max 0 (Z.min x (scrollTopMax env ms)).

Definition set_defaultPrevented (b : bool) (w : World) : World :=
  {| defaultPrevented := b; playerInput := playerInput w; messageLog := messageLog w;
     requests := requests w; console := console w |}.

Definition set_playerInput (v : option jsstring) (w : World) : World :=
  {| defaultPrevented := defaultPrevented w; playerInput := v; messageLog := messageLog w;
     requests := requests w; console := console w |}.

Definition set_messageLog (l : option MessageLog) (w : World) : World :=
  {| defaultPrevented := defaultPrevented w; playerInput := playerInput w; messageLog := l;
     requests := requests w; console := console w |}.

Definition set_requests (rs : list Request) (w : World) : World :=
  {| defaultPrevented := defaultPrevented w; playerInput := playerInput w;
     messageLog := messageLog w; requests := rs; console := console w |}.

Definition set_console (c : list Exn) (w : World) : World :=
  {| defaultPrevented := defaultPrevented w; playerInput := playerInput w;
     messageLog := messageLog w; requests := requests w; console := c |}.

(** ** The monad of the handler: state, exceptions, and the environment *)

(** A computation reads the environment, changes the world, and returns a
    value or throws.  The handler is an async function: what it throws
    outside [try] rejects its promise, [inl] at the end of the run. *)
Definition JS (A : Type) : Type := Env -> World -> (Exn + A) * World.

#[global] Instance JS_ret : MRet JS := fun A a _ w => (inr a, w).

#[global] Instance JS_bind : MBind JS := fun A B f m env w =>
  match m env w with
  | (inl e, w') => (inl e, w')
  | (inr a, w') => f a env w'
  end.

Definition throw {A : Type} (e : Exn) : JS A := fun _ w => (inl e, w).

(** [try { body } catch (error) { handler }] *)
Definition try_catch {A : Type} (body : JS A) (handler : Exn -> JS A) : JS A :=
  fun env w =>
    match body env w with
    | (inl e, w') => handler e env w'
    | (inr a, w') => (inr a, w')
    end.

Definition lift {A : Type} (r : Exn + A) : JS A := fun _ w => (r, w).

Definition or_throw {A : Type} (e : Exn) (o : option A) : JS A :=
  match o with Some a => mret a | None => throw e end.

(** [e.preventDefault()] *)
Definition preventDefault : JS unit := fun _ w => (inr tt, set_defaultPrevented true w).

(** [playerInput.value] *)
Definition playerInput_value : JS jsstring := fun _ w =>
  match playerInput w with
  | Some v => (inr v, w)
  | None => (inl TypeError, w)
  end.

(** [playerInput.value = v] *)
Definition set_playerInput_value (v : jsstring) : JS unit := fun _ w =>
  match playerInput w with
  | Some _ => (inr tt, set_playerInput (Some v) w)
  | None => (inl TypeError, w)
  end.

(** [document.createElement('div')] with its [className] and [textContent]
    set; the second assignment converts its value and may throw. *)
Definition createMessage (cls : string) (text : value) : JS Message :=
  t ← or_throw TypeError (dom_string text);
  mret {| className := cls; textContent := t |}.

(** [messageLog.appendChild(m)] *)
Definition messageLog_appendChild (m : Message) : JS unit := fun _ w =>
  match messageLog w with
  | Some l =>
    (inr tt, set_messageLog (Some {| children := children l ++ [m]; scrollTop := scrollTop l |}) w)
  | None => (inl TypeError, w)
  end.

(** [messageLog.scrollTop = messageLog.scrollHeight]: the height is read
    and assigned, and the browser clamps what it was given. *)
Definition scrollToBottom : JS unit := fun env w =>
  match messageLog w with
  | Some l =>
    (inr tt, set_messageLog
               (Some {| children := children l;
                        scrollTop := clamped env (children l) (scrollHeight env (children l)) |})
               w)
  | None => (inl TypeError, w)
  end.

(** [await fetch(url, init)]: the request leaves, then the server's answer
    or the rejection comes back. *)
Definition fetch (r : Request) : JS Response := fun env w =>
  (server env r, set_requests (requests w ++ [r]) w).

(** [await response.json()] *)
Definition json (r : Response) : JS JSON := lift (json_body r).

(** [v.key] *)
Definition get (v : value) (key : string) : JS value := lift (get_property v (lit key)).

(** [console.error('Error:', error)] *)
Definition console_error (e : Exn) : JS unit := fun _ w =>
  (inr tt, set_console (console w ++ [e]) w).

(** ** The submit handler of the command form (main.js, lines 10 to 65) *)

Definition send_request (encoded : string) : Request :=
  {| url := "/send";
     method := "POST";
     headers := [("Content-Type", "application/x-www-form-urlencoded")%string];
     body := ("player_input=" ++ encoded)%string |}.

Definition error_text : jsstring := lit "Error processing command. Please try again.".

(** Lines 37 to 53: the three kinds of response the handler knows. *)
Definition renderResponse (data : JSON) : JS unit :=
  ty ← get (Json data) "type";
  if strict_equals ty "roll" then
    formatted ← get (Json data) "formatted";
    dmMessage ← createMessage "message dm-message" formatted;
    messageLog_appendChild dmMessage
  else
    ty ← get (Json data) "type";
    if strict_equals ty "narrative" then
      response ← get (Json data) "response";
      dmMessage ← createMessage "message dm-message" response;
      messageLog_appendChild dmMessage
    else
      ty ← get (Json data) "type";
      if strict_equals ty "command" then
        result ← get (Json data) "result";
        message ← get result "message";
        dmMessage ← createMessage "message dm-message" message;
        messageLog_appendChild dmMessage
      else mret tt.

(** Lines 17 to 56: the body of [try]. *)
Definition sendCommand (input : jsstring) : JS unit :=
  playerMessage ← createMessage "message player-message" (Json (JString input));
  messageLog_appendChild playerMessage;;
  set_playerInput_value [];;
  encoded ← or_throw URIError (encodeURIComponent input);
  response ← fetch (send_request encoded);
  data ← json response;
  renderResponse data;;
  scrollToBottom.

(** Lines 59 to 63: the body of [catch]. *)
Definition reportError (error : Exn) : JS unit :=
  console_error error;;
  errorMessage ← createMessage "message error-message" (Json (JString error_text));
  messageLog_appendChild errorMessage.

Definition onSubmit : JS unit :=
  preventDefault;;
  v ← playerInput_value;
  let input := trim v in
  if falsy_string input then mret tt
  else try_catch (sendCommand input) reportError.

(** ** What the claims about the handler speak of *)

(** The world a run of the handler leaves. *)
Definition after_submit (env : Env) (w : World) : World := snd (onSubmit env w).

(** The messages in the log, none when the page has no log. *)
Definition messages (w : World) : list Message :=
  match messageLog w with Some l => children l | None => [] end.

Definition player_message (input : jsstring) : Message :=
  {| className := "message player-message"; textContent := input |}.

Definition dm_message (text : jsstring) : Message :=
  {| className := "message dm-message"; textContent := text |}.

Definition error_message : Message :=
  {| className := "message error-message"; textContent := error_text |}.

(** The log with one more message. *)
Definition with_message (m : Message) (l : MessageLog) : MessageLog :=
  {| children := children l ++ [m]; scrollTop := scrollTop l |}.

(** The world when the request has left: the player's message is in the
    log, the input is empty, the request is recorded. *)
Definition sent (input : jsstring) (encoded : string) (l : MessageLog) (w : World) : World :=
  set_requests (requests w ++ [send_request encoded])
    (set_playerInput (Some [])
       (set_messageLog (Some (with_message (player_message input) l)) w)).

(** The log scrolled to its bottom, as far as the layout lets it. *)
Definition scrolled (env : Env) (l : MessageLog) : MessageLog :=
  {| children := children l;
     scrollTop := clamped env (children l) (scrollHeight env (children l)) |}.

(** What a run may do to the log: keep every message where it is and add
    messages at the end. *)
Definition log_extends (w w' : World) : Prop :=
  match messageLog w, messageLog w' with
  | Some l, Some l' => exists added, children l' = children l ++ added
  | None, None => True
  | _, _ => False
  end.

(** [m] has property [P] between the world it starts in and the world it
    leaves, whether it returns or throws. *)
Definition preserves {A : Type} (P : World -> World -> Prop) (m : JS A) : Prop :=
  forall env w, P w (snd (m env w)).

(** [shows data text]: the response [data] is one of the three kinds the
    handler knows, and [text] is what its field converts to. *)
Inductive shows (data : JSON) (text : jsstring) : Prop :=
| shows_roll ty formatted :
    get_property (Json data) (lit "type") = inr ty ->
    strict_equals ty "roll" = true ->
    get_property (Json data) (lit "formatted") = inr formatted ->
    dom_string formatted = Some text ->
    shows data text
| shows_narrative ty response :
    get_property (Json data) (lit "type") = inr ty ->
    strict_equals ty "narrative" = true ->
    get_property (Json data) (lit "response") = inr response ->
    dom_string response = Some text ->
    shows data text
| shows_command ty result message :
    get_property (Json data) (lit "type") = inr ty ->
    strict_equals ty "command" = true ->
    get_property (Json data) (lit "result") = inr result ->
    get_property result (lit "message") = inr message ->
    dom_string message = Some text ->
    shows data text.

(** The type field of [data] can be read and is none of the three. *)
Definition other_type (data : JSON) : Prop :=
  exists ty, get_property (Json data) (lit "type") = inr ty
    /\ strict_equals ty "roll" = false
    /\ strict_equals ty "narrative" = false
    /\ strict_equals ty "command" = false.

(** Every submission of a non-empty command is posted and its response is
    rendered as one more message, read at one world and one environment. *)
Definition posts_and_renders (env : Env) (w : World) : Prop :=
  forall v l, playerInput w = Some v -> messageLog w = Some l -> trim v <> [] ->
    exists encoded,
      encodeURIComponent (trim v) = Some encoded
      /\ requests (after_submit env w) = requests w ++ [send_request encoded]
      /\ forall response data,
           server env (send_request encoded) = inr response ->
           json_body response = inr data ->
           exists m, messages (after_submit env w)
                     = children l ++ [player_message (trim v); m].

(** A response that parses as JSON and whose type is none of the three
    leaves no message of the DM and no error message, read at one world and
    one environment. *)
Definition drops_silently (env : Env) (w : World) : Prop :=
  forall v l encoded response data,
    playerInput w = Some v -> messageLog w = Some l -> trim v <> [] ->
    encodeURIComponent (trim v) = Some encoded ->
    server env (send_request encoded) = inr response ->
    json_body response = inr data ->
    (forall ty, get_property (Json data) (lit "type") = inr ty ->
       strict_equals ty "roll" = false /\ strict_equals ty "narrative" = false
       /\ strict_equals ty "command" = false) ->
    messages (after_submit env w) = children l ++ [player_message (trim v)].

(** Concrete inputs. *)
Definition game_page (typed : jsstring) : World :=
  {| defaultPrevented := false;
     playerInput := Some typed;
     messageLog := Some {| children := [dm_message (lit "Welcome.")]; scrollTop := 0 |};
     requests := [];
     console := [] |}.

Definition answering (answer : Exn + JSON) : Env :=
  {| server := fun _ => inr {| json_body := answer |};
     scrollHeight := fun ms => (20 * Z.of_nat (length ms))%Z;
     scrollTopMax := fun ms => Z.max 0 (20 * Z.of_nat (length ms) - 50)%Z |}.

Definition unknown_response : JSON :=
  JObject [(lit "type", JString (lit "status")); (lit "response", JString (lit "ok"))].

Definition roll_response : JSON :=
  JObject [(lit "type", JString (lit "roll")); (lit "formatted", JString (lit "1d20+2 = 17"))].

(** ** The outcome of a run, as a function of the answers *)

(** How the exchange with the server ends for the page: a message of the
    DM with a text, nothing, or the error message for what was thrown. *)
Inductive outcome : Type :=
| Rendered (text : jsstring)
| Dropped
| Reported (e : Exn).

(** What a field read for display comes to. *)
Definition field_outcome (r : Exn + value) : outcome :=
  match r with
  | inl e => Reported e
  | inr v =>
    match dom_string v with
    | Some text => Rendered text
    | None => Reported TypeError
    end
  end.

(** What lines 37 to 53 come to for the parsed response [data]. *)
Definition render_outcome (data : JSON) : outcome :=
  match get_property (Json data) (lit "type") with
  | inl e => Reported e
  | inr ty =>
    if strict_equals ty "roll" then
      field_outcome (get_property (Json data) (lit "formatted"))
    else if strict_equals ty "narrative" then
      field_outcome (get_property (Json data) (lit "response"))
    else if strict_equals ty "command" then
      match get_property (Json data) (lit "result") with
      | inl e => Reported e
      | inr result => field_outcome (get_property result (lit "message"))
      end
    else Dropped
  end.

(** What a submission of the command [input] comes to in [env]. *)
Definition exchange (env : Env) (input : jsstring) : outcome :=
  match encodeURIComponent input with
  | None => Reported URIError
  | Some encoded =>
    match server env (send_request encoded) with
    | inl e => Reported e
    | inr response =>
      match json_body response with
      | inl e => Reported e
      | inr data => render_outcome data
      end
    end
  end.

(** The world once the player's message is in the log and the input is
    empty. *)
Definition echoed (input : jsstring) (l : MessageLog) (w : World) : World :=
  set_playerInput (Some [])
    (set_messageLog (Some (with_message (player_message input) l)) w).

(** The world a run leaves on a page with the input field and the log [l],
    for a command that is not blank: the default prevented, the player's
    message, the request if the command could be encoded, and then what
    the outcome adds. *)
Definition settled (env : Env) (input : jsstring) (l : MessageLog) (w : World) : World :=
  let w0 := set_defaultPrevented true w in
  let w1 := match encodeURIComponent input with
            | Some encoded => sent input encoded l w0
            | None => echoed input l w0
            end in
  let shown := with_message (player_message input) l in
  match exchange env input with
  | Rendered text =>
    set_messageLog (Some (scrolled env (with_message (dm_message text) shown))) w1
  | Dropped => set_messageLog (Some (scrolled env shown)) w1
  | Reported e =>
    set_messageLog (Some (with_message error_message shown))
      (set_console (console w ++ [e]) w1)
  end.

(** A text made of white space only. *)
Definition blank (v : jsstring) : bool := forallb is_space v.

(** The characters a URI-encoded component is made of: the unreserved ones
    and the percent sign of an escape. *)
Definition uri_safe (a : ascii) : bool :=
  uri_unreserved (N_of_ascii a) || (N_of_ascii a =? 0x25).

(** A code unit is a 16-bit number. *)
Definition code_unit (c : N) : Prop := c < 0x10000.

Definition is_surrogate (c : N) : bool := is_lead_surrogate c || is_trail_surrogate c.

(** ** Several submissions in a row *)

(** The player replaces the text of the input field. *)
Definition type_text (v : jsstring) (w : World) : World :=
  match playerInput w with
  | Some _ => set_playerInput (Some v) w
  | None => w
  end.

(** The player types and submits one text after the other; each run ends
    before the next begins, and the server answers each as its [Env]
    says. *)
Definition session (steps : list (jsstring * Env)) (w : World) : World :=
  fold_left (fun w step => after_submit (snd step) (type_text (fst step) w)) steps w.

(** The request a typed text leads to, if any. *)
Definition request_of (v : jsstring) : list Request :=
  if falsy_string (trim v) then []
  else match encodeURIComponent (trim v) with
       | Some encoded => [send_request encoded]
       | None => []
       end.

(** The message of the player a typed text leads to, if any. *)
Definition echo_of (v : jsstring) : list Message :=
  if falsy_string (trim v) then [] else [player_message (trim v)].

Definition is_player_message (m : Message) : bool :=
  String.eqb (className m) "message player-message".

End Client.

Module Engine.

Local Open Scope nat_scope.

(** ** Data model (specification, section 3) *)

(** Modelled from the spec: the error kinds of section 7.  No source file of
    the combat engine is in the repository. *)
Inductive Error : Type :=
| InvalidRulesetError
| EmptyEncounterError
| EncounterTerminalError
| NotYourTurnError
| ActionAlreadyUsedError
| InvalidActionTypeError
| InsufficientMovementError
| MalformedExpressionError
| UnknownStatReferenceError.

(** Modelled from the spec: the four action types of an ActionDeclaration
    (section 3); the engine's type is missing. *)
Inductive ActionType : Type := Standard | Move | Bonus | Reaction.

(** Modelled from the spec: a Combatant's action slots, "standard / move /
    bonus / reaction, availability booleans reset each round" (section 3);
    [true] is available. *)
Record Slots : Type :=
  { standard_slot : bool; move_slot : bool; bonus_slot : bool; reaction_slot : bool }.

(** Modelled from the spec: the slots at the start of a round, all
    available ("availability booleans reset each round"). *)
Definition fresh_slots : Slots :=
  {| standard_slot := true; move_slot := true; bonus_slot := true; reaction_slot := true |}.

(** Modelled from the spec: "the corresponding availability flag" of an
    action type (section 4.2). *)
Definition available (t : ActionType) (s : Slots) : bool :=
  match t with
  | Standard => standard_slot s
  | Move => move_slot s
  | Bonus => bonus_slot s
  | Reaction => reaction_slot s
  end.

(** Modelled from the spec: "marks the flag consumed" (section 4.2). *)
Definition consume (t : ActionType) (s : Slots) : Slots :=
  match t with
  | Standard => {| standard_slot := false; move_slot := move_slot s;
                   bonus_slot := bonus_slot s; reaction_slot := reaction_slot s |}
  | Move => {| standard_slot := standard_slot s; move_slot := false;
               bonus_slot := bonus_slot s; reaction_slot := reaction_slot s |}
  | Bonus => {| standard_slot := standard_slot s; move_slot := move_slot s;
                bonus_slot := false; reaction_slot := reaction_slot s |}
  | Reaction => {| standard_slot := standard_slot s; move_slot := move_slot s;
                   bonus_slot := bonus_slot s; reaction_slot := false |}
  end.

(** Modelled from the spec: a status effect, "named effects with optional
    duration in rounds" (section 3).  Section 4.1 passes over a combatant
    with "an incapacitating status effect"; whether an effect incapacitates
    is recorded with the effect. *)
Record StatusEffect : Type :=
  { effect_name : string; duration : option nat; incapacitating : bool }.

(** Modelled from the spec: the Combatant of section 3.  The data model
    lists no side, but the invariant on terminal encounters counts the
    active combatants "on a side", so a combatant names its side. *)
Record Combatant : Type :=
  { id : string;
    side : string;
    initiative : Z;
    slots : Slots;
    hit_points : Z;
    defense : Z;
    status_effects : list StatusEffect }.

(** Modelled from the spec: the ActionDeclaration of section 3.  The type
    arrives as the command interface names it, so that an unrecognized type
    (InvalidActionTypeError) can be declared at all. *)
Record ActionDeclaration : Type :=
  { action_type : string;
    actor : string;
    target : option string;
    parameters : list (string * string) }.

(** Modelled from the spec: the event kinds of section 4.4.  The kinds the
    operations below emit carry the state they changed; the payloads of the
    others are left out. *)
Inductive EventKind : Type :=
| InitiativeRolled
| TurnAdvanced (new_pointer : nat)
| RoundAdvanced (new_round : nat)
| ActionDeclared (declaration : ActionDeclaration)
| ActionResolved
| StatusApplied
| StatusExpired
| EncounterEnded.

(** Modelled from the spec: an Event of the log, its kind with "a
    timestamp-independent sequence number" (section 4.4). *)
Record Event : Type := { sequence : nat; kind : EventKind }.

(** Modelled from the spec: the Encounter of section 3: the ordered
    combatants, the round number, the turn pointer and the combat log. *)
Record Encounter : Type :=
  { order : list Combatant;
    round : nat;
    pointer : nat;
    log : list Event }.

Definition set_order (o : list Combatant) (e : Encounter) : Encounter :=
  {| order := o; round := round e; pointer := pointer e; log := log e |}.

Definition set_round (r : nat) (e : Encounter) : Encounter :=
  {| order := order e; round := r; pointer := pointer e; log := log e |}.

Definition set_pointer (p : nat) (e : Encounter) : Encounter :=
  {| order := order e; round := round e; pointer := p; log := log e |}.

Definition set_log (l : list Event) (e : Encounter) : Encounter :=
  {| order := order e; round := round e; pointer := pointer e; log := l |}.

Definition set_slots (s : Slots) (c : Combatant) : Combatant :=
  {| id := id c; side := side c; initiative := initiative c; slots := s;
     hit_points := hit_points c; defense := defense c;
     status_effects := status_effects c |}.

(** ** Combat log (section 4.4) *)

(** Modelled from the spec: [emit(encounter, event)] "appends to the log,
    returns the event's assigned monotonically increasing sequence number";
    the number assigned is the event's position in the log. *)
Definition emit (e : Encounter) (k : EventKind) : Encounter * nat :=
  let n := length (log e) in
  (set_log (log e ++ [{| sequence := n; kind := k |}]) e, n).

(** ** Turn order (section 4.1) *)

(** Modelled from the spec: the skip policy, "a combatant with zero hit
    points or an incapacitating status effect is passed over on its turn
    but remains in the order".  Hit points below zero count as zero. *)
Definition is_active (c : Combatant) : bool :=
  (0 <? hit_points c)%Z && negb (existsb incapacitating (status_effects c)).

Definition active_at (o : list Combatant) (i : nat) : bool :=
  match o !! i with
  | Some c => is_active c
  | None => false
  end.

(** Whether an active combatant of the side [s] remains. *)
Definition side_has_active (o : list Combatant) (s : string) : bool :=
  existsb (fun c => bool_decide (side c = s) && is_active c) o.

(** Modelled from the spec: "An Encounter with zero remaining active
    Combatants on a side is terminal" (section 3, invariants); the sides are
    those of the combatants in the order. *)
Definition terminal (e : Encounter) : bool :=
  existsb (fun c => negb (side_has_active (order e) (side c))) (order e).

(** The number of active positions below [p]. *)
Definition rank (a : nat -> bool) (p : nat) : nat :=
  length (List.filter a (seq 0 p)).

(** The first active position among [from, from + count). *)
Definition first_active (o : list Combatant) (from count : nat) : option nat :=
  List.find (active_at o) (seq from count).

(** Modelled from the spec: "the next active (non-defeated, non-skipped)
    combatant": the first active position after the pointer, or else,
    wrapping past the end of the sequence, the first one from the start up
    to the pointer.  The boolean tells whether the pointer wrapped. *)
Definition next_active (e : Encounter) : option (nat * bool) :=
  match first_active (order e) (S (pointer e)) (length (order e) - S (pointer e)) with
  | Some i => Some (i, false)
  | None =>
    match first_active (order e) 0 (S (pointer e)) with
    | Some i => Some (i, true)
    | None => None
    end
  end.

(** Modelled from the spec: "resets per-round action-availability flags for
    all combatants" (section 4.1). *)
Definition reset_slots (o : list Combatant) : list Combatant :=
  set_slots fresh_slots <$> o.

(** Modelled from the spec: [advanceTurn(encounter)] "moves the turn pointer
    to the next active combatant; if the pointer wraps past the end of the
    sequence, increments the round counter and resets per-round
    action-availability flags for all combatants.  Returns the updated
    pointer and round number.  No-op error if the encounter is already
    terminal (EncounterTerminalError)."  Each transition is logged
    (section 4.4): the new round first, then the new turn.  The flags are
    reset where section 4.1 says, on the wrap.  An encounter with no active
    combatant at all has no next turn either; with a combatant in it, it is
    terminal already. *)
Definition advanceTurn (e : Encounter) : Encounter * (Error + nat * nat) :=
  if terminal e then (e, inl EncounterTerminalError)
  else
    match next_active e with
    | None => (e, inl EncounterTerminalError)
    | Some (next, false) =>
      let e1 := set_pointer next e in
      let e2 := fst (emit e1 (TurnAdvanced next)) in
      (e2, inr (pointer e2, round e2))
    | Some (next, true) =>
      let e1 := set_order (reset_slots (order e)) (set_round (S (round e)) e) in
      let e2 := fst (emit e1 (RoundAdvanced (round e1))) in
      let e3 := set_pointer next e2 in
      let e4 := fst (emit e3 (TurnAdvanced next)) in
      (e4, inr (pointer e4, round e4))
    end.

(** ** Action economy (section 4.2) *)

(** Modelled from the spec: the four recognized action types, by the names
    the specification gives them; any other is "unrecognized". *)
Definition parse_action_type (s : string) : option ActionType :=
  if decide (s = "Standard") then Some Standard
  else if decide (s = "Move") then Some Move
  else if decide (s = "Bonus") then Some Bonus
  else if decide (s = "Reaction") then Some Reaction
  else None.

(** The position of the first combatant with the given identity. *)
Fixpoint position_of (who : string) (o : list Combatant) : option nat :=
  match o with
  | [] => None
  | c :: rest =>
    if decide (id c = who) then Some 0
    else option_map S (position_of who rest)
  end.

(** Modelled from the spec: check (a) of [declareAction] (section 4.2), for
    the combatant at position [i]: "it is the declaring combatant's turn
    for Standard/Move/Bonus types".  A Reaction is declared out of turn;
    the specification names no error for a reaction whose trigger does
    not qualify (the trigger is an external event), so a Reaction passes
    this check. *)
Definition in_turn (e : Encounter) (t : ActionType) (i : nat) : bool :=
  match t with
  | Reaction => true
  | _ => Nat.eqb (pointer e) i
  end.

(** Modelled from the spec: [declareAction(encounter, declaration)] "checks
    that (a) it is the declaring combatant's turn for Standard/Move/Bonus
    types, or that a Reaction is being triggered [...]; (b) the
    corresponding availability flag is still unused this round.  On
    success, marks the flag consumed and returns an accepted
    ActionDeclaration for resolution.  Fails with NotYourTurnError
    (non-reaction out of turn), ActionAlreadyUsedError (flag already
    consumed), or InvalidActionTypeError (unrecognized type)."  The type is
    recognized first.  In a terminal encounter "no further actions may be
    declared" (section 3): the declaration is refused with
    EncounterTerminalError, the kind [advanceTurn] gives a terminal
    encounter.  Section 4.2 sets no order between (a) and (b); section 8
    has a second declaration of the same type in the same round fail with
    ActionAlreadyUsedError, so a consumed flag is reported before the
    turn.  A declaring combatant that is not in the encounter has no turn.
    The accepted declaration is logged (section 4.4). *)
Definition declareAction (e : Encounter) (d : ActionDeclaration)
  : Encounter * (Error + ActionDeclaration) :=
  match parse_action_type (action_type d) with
  | None => (e, inl InvalidActionTypeError)
  | Some t =>
    if terminal e then (e, inl EncounterTerminalError)
    else
      match position_of (actor d) (order e) with
      | None => (e, inl NotYourTurnError)
      | Some i =>
        match order e !! i with
        | None => (e, inl NotYourTurnError)
        | Some c =>
          if negb (available t (slots c)) then (e, inl ActionAlreadyUsedError)
          else if negb (in_turn e t i) then (e, inl NotYourTurnError)
          else
            let e1 := set_order (<[i := set_slots (consume t (slots c)) c]> (order e)) e in
            (fst (emit e1 (ActionDeclared d)), inr d)
        end
      end
  end.

(** ** Sequences of operations *)

(** [advanceTurn] called [n] times in a row; the first error stops the
    sequence. *)
Fixpoint advanceTurns (n : nat) (e : Encounter) : Error + Encounter :=
  match n with
  | 0 => inr e
  | S k =>
    match advanceTurn e with
    | (e', inr _) => advanceTurns k e'
    | (_, inl err) => inl err
    end
  end.

(** The number of active combatants of an encounter. *)
Definition active_count (e : Encounter) : nat :=
  length (List.filter is_active (order e)).

(** Two encounters whose combatants stand alike: as many of them, the same
    positions active, and terminal or not alike. *)
Definition same_standing (e e' : Encounter) : Prop :=
  length (order e') = length (order e)
  /\ (forall i, active_at (order e') i = active_at (order e) i)
  /\ terminal e' = terminal e.

(** A call of one of the two operations on an encounter. *)
Inductive Operation : Type :=
| AdvanceTurn
| DeclareAction (d : ActionDeclaration).

Definition apply (e : Encounter) (op : Operation) : Encounter :=
  match op with
  | AdvanceTurn => fst (advanceTurn e)
  | DeclareAction d => fst (declareAction e d)
  end.

(** The encounter after a sequence of calls, failed ones included. *)
Definition run (ops : list Operation) (e : Encounter) : Encounter :=
  fold_left apply ops e.


(** ** What the claims about the engine speak of *)

(** [advanceTurn] called as many times as there are active combatants
    returns the pointer to where it was, one round later; read at one
    encounter. *)
Definition full_cycle_returns (e : Encounter) : Prop :=
  terminal e = false ->
  exists e', advanceTurns (active_count e) e = inr e'
    /\ pointer e' = pointer e /\ round e' = S (round e).

(** Concrete encounters. *)
Definition combatant (name team : string) (init hp : Z) : Combatant :=
  {| id := name; side := team; initiative := init; slots := fresh_slots;
     hit_points := hp; defense := 12; status_effects := [] |}.

Definition duel : Encounter :=
  {| order := [combatant "A" "heroes" 15 20; combatant "B" "monsters" 10 14];
     round := 1; pointer := 0; log := [] |}.

(** The combatant first in the order has fallen; its side fights on. *)
Definition fallen_first : Encounter :=
  {| order := [combatant "A" "heroes" 15 0; combatant "B" "heroes" 10 18;
               combatant "C" "monsters" 5 14];
     round := 1; pointer := 0; log := [] |}.

(** B has fallen: the monsters have no active combatant left. *)
Definition won_duel : Encounter :=
  {| order := [combatant "A" "heroes" 15 20; combatant "B" "monsters" 10 0];
     round := 3; pointer := 0; log := [] |}.

Definition declares (type who : string) : ActionDeclaration :=
  {| action_type := type; actor := who; target := None; parameters := [] |}.

End Engine.

Module ClientFacts.
Import Client.

Local Open Scope N_scope.

(** ** The definitions at work *)

Example trim_roll : trim (lit "  /roll 1d20+DEX  ") = lit "/roll 1d20+DEX".
Proof. reflexivity. Qed.

Example encode_roll :
  encodeURIComponent (lit "/roll 1d20+DEX") = Some "%2Froll%201d20%2BDEX"%string.
Proof. reflexivity. Qed.

Example encode_eacute_euro :
  encodeURIComponent [0xE9; 0x20AC] = Some "%C3%A9%E2%82%AC"%string.
Proof. reflexivity. Qed.

Example encode_pair : encodeURIComponent [0xD83C; 0xDFB2] = Some "%F0%9F%8E%B2"%string.
Proof. reflexivity. Qed.

Example encode_lone_surrogate : encodeURIComponent [0x61; 0xD800; 0x62] = None.
Proof. reflexivity. Qed.

Example array_as_text :
  dom_string (Json (JArray [JNumber (lit "1"); JNull; JArray [JBool true; JString (lit "x")]]))
  = Some (lit "1,,true,x").
Proof. reflexivity. Qed.

Example object_as_text : dom_string (Json (JObject [(lit "a", JNull)])) = Some (lit "[object Object]").
Proof. reflexivity. Qed.

Example own_toString_throws :
  dom_string (Json (JObject [(lit "toString", JString (lit "x"))])) = None.
Proof. reflexivity. Qed.

Example roll_is_rendered :
  messages (after_submit (answering (inr roll_response)) (game_page (lit "/roll 1d20+DEX")))
  = [dm_message (lit "Welcome."); player_message (lit "/roll 1d20+DEX");
     dm_message (lit "1d20+2 = 17")].
Proof. reflexivity. Qed.

Example invalid_json_is_reported :
  messages (after_submit (answering (inl SyntaxError)) (game_page (lit "look")))
  = [dm_message (lit "Welcome."); player_message (lit "look"); error_message].
Proof. reflexivity. Qed.

Example lone_surrogate_is_not_posted :
  requests (after_submit (answering (inr roll_response)) (game_page [0x61; 0xD800])) = []
  /\ messages (after_submit (answering (inr roll_response)) (game_page [0x61; 0xD800]))
     = [dm_message (lit "Welcome."); player_message [0x61; 0xD800]; error_message].
Proof. split; reflexivity. Qed.

(** ** Running the monad *)

Lemma bind_inr {A B : Type} (m : JS A) (f : A -> JS B) env w a w' :
  m env w = (inr a, w') -> (m ≫= f) env w = f a env w'.
Proof. intros H. unfold mbind, JS_bind. now rewrite H. Qed.

Lemma bind_inl {A B : Type} (m : JS A) (f : A -> JS B) env w e w' :
  m env w = (inl e, w') -> (m ≫= f) env w = (inl e, w').
Proof. intros H. unfold mbind, JS_bind. now rewrite H. Qed.

Lemma createMessage_string cls s env w :
  createMessage cls (Json (JString s)) env w
  = (inr {| className := cls; textContent := s |}, w).
Proof. reflexivity. Qed.

Lemma createMessage_text cls v t env w :
  dom_string v = Some t ->
  createMessage cls v env w = (inr {| className := cls; textContent := t |}, w).
Proof. intros H. unfold createMessage. rewrite H. reflexivity. Qed.

Lemma get_value v key r env w :
  get_property v (lit key) = r -> get v key env w = (r, w).
Proof. intros <-. reflexivity. Qed.

Lemma appendChild_some m l env w :
  messageLog w = Some l ->
  messageLog_appendChild m env w = (inr tt, set_messageLog (Some (with_message m l)) w).
Proof. intros H. unfold messageLog_appendChild. rewrite H. reflexivity. Qed.

(** ** The three parts of the handler *)

Lemma sendCommand_sent input encoded l v env w :
  messageLog w = Some l -> playerInput w = Some v ->
  encodeURIComponent input = Some encoded ->
  sendCommand input env w
  = match server env (send_request encoded) with
    | inl e => (inl e, sent input encoded l w)
    | inr response =>
      match json_body response with
      | inl e => (inl e, sent input encoded l w)
      | inr data => (renderResponse data;; scrollToBottom) env (sent input encoded l w)
      end
    end.
Proof.
  intros Hl Hv He. unfold sendCommand.
  erewrite bind_inr by apply createMessage_string.
  erewrite bind_inr by (apply appendChild_some; eassumption).
  erewrite bind_inr by (unfold set_playerInput_value; cbn; rewrite Hv; reflexivity).
  rewrite He.
  erewrite bind_inr by reflexivity.
  unfold mbind at 1, JS_bind at 1, fetch.
  destruct (server env (send_request encoded)) as [e|response]; [reflexivity|].
  unfold mbind at 1, JS_bind at 1, json, lift.
  destruct (json_body response) as [e|data]; reflexivity.
Qed.

Lemma strict_equals_lit v s :
  strict_equals v s = true -> v = Json (JString (lit s)).
Proof.
  destruct v as [|[]]; try discriminate. cbn.
  intros H. apply bool_decide_eq_true in H. now subst.
Qed.

Lemma renderResponse_shows data text l env w :
  shows data text -> messageLog w = Some l ->
  renderResponse data env w
  = (inr tt, set_messageLog (Some (with_message (dm_message text) l)) w).
Proof.
  intros Hs Hl. unfold renderResponse.
  destruct Hs as [ty f Hty Hroll Hf Ht | ty r Hty Hn Hr Ht | ty r m Hty Hc Hr Hm Ht].
  - erewrite bind_inr by (apply get_value; eassumption). rewrite Hroll.
    erewrite bind_inr by (apply get_value; eassumption).
    erewrite bind_inr by (apply createMessage_text; eassumption).
    now apply appendChild_some.
  - erewrite bind_inr by (apply get_value; eassumption).
    apply strict_equals_lit in Hn as Hty'. subst ty. cbn [strict_equals].
    rewrite bool_decide_eq_false_2 by discriminate.
    erewrite bind_inr by (apply get_value; eassumption). rewrite Hn.
    erewrite bind_inr by (apply get_value; eassumption).
    erewrite bind_inr by (apply createMessage_text; eassumption).
    now apply appendChild_some.
  - erewrite bind_inr by (apply get_value; eassumption).
    apply strict_equals_lit in Hc as Hty'. subst ty. cbn [strict_equals].
    rewrite bool_decide_eq_false_2 by discriminate.
    erewrite bind_inr by (apply get_value; eassumption).
    cbn [strict_equals]. rewrite bool_decide_eq_false_2 by discriminate.
    erewrite bind_inr by (apply get_value; eassumption). rewrite Hc.
    erewrite bind_inr by (apply get_value; eassumption).
    erewrite bind_inr by (apply get_value; eassumption).
    erewrite bind_inr by (apply createMessage_text; eassumption).
    now apply appendChild_some.
Qed.

Lemma renderResponse_other data env w :
  other_type data -> renderResponse data env w = (inr tt, w).
Proof.
  intros (ty & Hty & Hr & Hn & Hc). unfold renderResponse.
  erewrite bind_inr by (apply get_value; eassumption). rewrite Hr.
  erewrite bind_inr by (apply get_value; eassumption). rewrite Hn.
  erewrite bind_inr by (apply get_value; eassumption). rewrite Hc.
  reflexivity.
Qed.
Lemma scrollToBottom_some l env w :
  messageLog w = Some l ->
  scrollToBottom env w = (inr tt, set_messageLog (Some (scrolled env l)) w).
Proof. intros H. unfold scrollToBottom. rewrite H. reflexivity. Qed.

Lemma reportError_some e l env w :
  messageLog w = Some l ->
  reportError e env w
  = (inr tt, set_messageLog (Some (with_message error_message l))
               (set_console (console w ++ [e]) w)).
Proof.
  intros H. unfold reportError.
  erewrite bind_inr by reflexivity.
  erewrite bind_inr by apply createMessage_string.
  now apply appendChild_some.
Qed.

(** A submission of a command that can be encoded: the rest of the run,
    from the world in which the request has left. *)
Lemma onSubmit_sent env w v l encoded :
  playerInput w = Some v -> messageLog w = Some l -> trim v <> [] ->
  encodeURIComponent (trim v) = Some encoded ->
  onSubmit env w
  = let w1 := sent (trim v) encoded l (set_defaultPrevented true w) in
    match server env (send_request encoded) with
    | inl e => reportError e env w1
    | inr response =>
      match json_body response with
      | inl e => reportError e env w1
      | inr data => try_catch (renderResponse data;; scrollToBottom) reportError env w1
      end
    end.
Proof.
  intros Hv Hl Ht He. unfold onSubmit.
  erewrite bind_inr by reflexivity.
  erewrite bind_inr by (unfold playerInput_value; cbn; rewrite Hv; reflexivity).
  cbv zeta. destruct (trim v) as [|c rest] eqn:Hinput; [congruence|].
  cbn [falsy_string]. unfold try_catch at 1.
  erewrite sendCommand_sent by (cbn; eassumption).
  destruct (server env (send_request encoded)) as [e|response]; [reflexivity|].
  destruct (json_body response) as [e|data]; reflexivity.
Qed.

(** ** Frames: what a part of the handler leaves alone *)

Section Preserves.
Variable P : World -> World -> Prop.
Hypothesis P_refl : forall w, P w w.
Hypothesis P_trans : forall w1 w2 w3, P w1 w2 -> P w2 w3 -> P w1 w3.

Lemma preserves_ret {A : Type} (a : A) : preserves P (mret a).
Proof. intros env w. apply P_refl. Qed.

Lemma preserves_throw {A : Type} (e : Exn) : preserves P (@throw A e).
Proof. intros env w. apply P_refl. Qed.

Lemma preserves_lift {A : Type} (r : Exn + A) : preserves P (lift r).
Proof. intros env w. apply P_refl. Qed.

Lemma preserves_or_throw {A : Type} (e : Exn) (o : option A) : preserves P (or_throw e o).
Proof. destruct o; [apply preserves_ret | apply preserves_throw]. Qed.

Lemma preserves_bind {A B : Type} (m : JS A) (f : A -> JS B) :
  preserves P m -> (forall a, preserves P (f a)) -> preserves P (m ≫= f).
Proof.
  intros Hm Hf env w. unfold mbind, JS_bind. specialize (Hm env w).
  destruct (m env w) as [[e|a] w']; cbn in *; [assumption|].
  eapply P_trans; [eassumption | apply Hf].
Qed.

Lemma preserves_try_catch {A : Type} (m : JS A) (h : Exn -> JS A) :
  preserves P m -> (forall e, preserves P (h e)) -> preserves P (try_catch m h).
Proof.
  intros Hm Hh env w. unfold try_catch. specialize (Hm env w).
  destruct (m env w) as [[e|a] w']; cbn in *; [|assumption].
  eapply P_trans; [eassumption | apply Hh].
Qed.

Lemma preserves_get v key : preserves P (get v key).
Proof. apply preserves_lift. Qed.

Lemma preserves_createMessage cls v : preserves P (createMessage cls v).
Proof.
  unfold createMessage. apply preserves_bind; [apply preserves_or_throw|].
  intros t. apply preserves_ret.
Qed.

Hypothesis P_appendChild : forall m, preserves P (messageLog_appendChild m).
Hypothesis P_scrollToBottom : preserves P scrollToBottom.
Hypothesis P_console_error : forall e, preserves P (console_error e).

Lemma preserves_renderResponse data : preserves P (renderResponse data).
Proof.
  unfold renderResponse.
  repeat first
    [ apply preserves_ret | apply preserves_get | apply preserves_createMessage
    | apply P_appendChild
    | apply preserves_bind; [|intros ?]
    | match goal with |- preserves P (if ?b then _ else _) => destruct b end ].
Qed.

Lemma preserves_reportError e : preserves P (reportError e).
Proof.
  unfold reportError.
  repeat first
    [ apply P_console_error | apply preserves_createMessage | apply P_appendChild
    | apply preserves_bind; [|intros ?] ].
Qed.

Lemma preserves_rendering data :
  preserves P (try_catch (renderResponse data;; scrollToBottom) reportError).
Proof.
  apply preserves_try_catch; [|apply preserves_reportError].
  apply preserves_bind; [apply preserves_renderResponse | intros; apply P_scrollToBottom].
Qed.

Hypothesis P_preventDefault : preserves P preventDefault.
Hypothesis P_set_value : forall v, preserves P (set_playerInput_value v).
Hypothesis P_fetch : forall r, preserves P (fetch r).

Lemma preserves_onSubmit : preserves P onSubmit.
Proof.
  unfold onSubmit.
  apply preserves_bind; [apply P_preventDefault | intros _].
  apply preserves_bind.
  { intros env w. unfold playerInput_value. destruct (playerInput w); apply P_refl. }
  intros v. cbv zeta. destruct (falsy_string (trim v)); [apply preserves_ret|].
  apply preserves_try_catch; [|apply preserves_reportError].
  unfold sendCommand, json.
  repeat first
    [ apply preserves_createMessage | apply P_appendChild | apply P_set_value
    | apply preserves_or_throw | apply P_fetch | apply preserves_lift
    | apply preserves_renderResponse | apply P_scrollToBottom
    | apply preserves_bind; [|intros ?] ].
Qed.

End Preserves.

(** ** The log only grows *)

Lemma log_extends_refl w : log_extends w w.
Proof. unfold log_extends. destruct (messageLog w); [exists []; now rewrite app_nil_r | exact I]. Qed.

Lemma log_extends_trans w1 w2 w3 :
  log_extends w1 w2 -> log_extends w2 w3 -> log_extends w1 w3.
Proof.
  unfold log_extends.
  destruct (messageLog w1), (messageLog w2), (messageLog w3); try tauto.
  intros [a1 H1] [a2 H2]. exists (a1 ++ a2). now rewrite H2, H1, <- app_assoc.
Qed.

Lemma log_extends_same w w' : messageLog w' = messageLog w -> log_extends w w'.
Proof. intros H. unfold log_extends. rewrite H. apply log_extends_refl. Qed.

Lemma onSubmit_log_extends : preserves log_extends onSubmit.
Proof.
  apply preserves_onSubmit.
  - apply log_extends_refl.
  - apply log_extends_trans.
  - intros m env w. unfold messageLog_appendChild, log_extends.
    destruct (messageLog w) as [l|] eqn:Hl; cbn; rewrite ?Hl; [now exists [m] | exact I].
  - intros env w. unfold scrollToBottom, log_extends.
    destruct (messageLog w) as [l|] eqn:Hl; cbn; rewrite ?Hl;
      [exists []; now rewrite app_nil_r | exact I].
  - intros e env w. now apply log_extends_same.
  - intros env w. now apply log_extends_same.
  - intros v env w. unfold set_playerInput_value.
    destruct (playerInput w); now apply log_extends_same.
  - intros r env w. now apply log_extends_same.
Qed.

(** Once the request has left, no part of the handler sends another. *)
Definition same_requests (w w' : World) : Prop := requests w' = requests w.

Lemma rendering_same_requests data :
  preserves same_requests (try_catch (renderResponse data;; scrollToBottom) reportError).
Proof.
  apply preserves_rendering; unfold same_requests.
  - reflexivity.
  - intros; congruence.
  - intros m env w. unfold messageLog_appendChild. now destruct (messageLog w).
  - intros env w. unfold scrollToBottom. now destruct (messageLog w).
  - intros e env w. reflexivity.
Qed.

Lemma reportError_same_requests e : preserves same_requests (reportError e).
Proof.
  apply preserves_reportError; unfold same_requests.
  - intros; congruence.
  - intros m env w. unfold messageLog_appendChild. now destruct (messageLog w).
  - intros e' env w. reflexivity.
Qed.

(** ** The claims about the handler *)

(** C9. A submission whose input trims to the empty string: the handler
    returns after [preventDefault]; the world it leaves is the one it
    found with the default prevented, so no request was sent and the
    message log and the input field are as they were. *)
Theorem empty_submission_is_noop env w v :
  playerInput w = Some v -> trim v = [] ->
  onSubmit env w = (inr tt, set_defaultPrevented true w)
  /\ requests (after_submit env w) = requests w
  /\ messageLog (after_submit env w) = messageLog w
  /\ playerInput (after_submit env w) = playerInput w.
Proof.
  intros Hv Ht.
  assert (H : onSubmit env w = (inr tt, set_defaultPrevented true w)).
  { unfold onSubmit.
    erewrite bind_inr by reflexivity.
    erewrite bind_inr by (unfold playerInput_value; cbn; rewrite Hv; reflexivity).
    cbv zeta. rewrite Ht. reflexivity. }
  unfold after_submit. rewrite H. repeat split.
Qed.

(** The theorem at a page whose input holds two spaces. *)
Lemma empty_submission_witness :
  onSubmit (answering (inr roll_response)) (game_page (lit "  "))
  = (inr tt, set_defaultPrevented true (game_page (lit "  ")))
  /\ requests (after_submit (answering (inr roll_response)) (game_page (lit "  "))) = []
  /\ messageLog (after_submit (answering (inr roll_response)) (game_page (lit "  ")))
     = messageLog (game_page (lit "  "))
  /\ playerInput (after_submit (answering (inr roll_response)) (game_page (lit "  ")))
     = Some (lit "  ").
Proof.
  exact (empty_submission_is_noop (answering (inr roll_response)) (game_page (lit "  "))
           (lit "  ") eq_refl eq_refl).
Defined.

(** C1, as amended. A submission whose trimmed input is not empty and can
    be encoded, on a page with the input field and the log: one request
    leaves, a POST to /send with the input as the URL-encoded player_input
    field; and when the response parses as JSON of type roll, narrative or
    command whose field converts to text, the log ends with the player's
    message followed by one message of the DM with that text. *)
Theorem submit_posts_and_renders_known env w v l encoded :
  playerInput w = Some v -> messageLog w = Some l -> trim v <> [] ->
  encodeURIComponent (trim v) = Some encoded ->
  requests (after_submit env w) = requests w ++ [send_request encoded]
  /\ forall response data text,
       server env (send_request encoded) = inr response ->
       json_body response = inr data ->
       shows data text ->
       messages (after_submit env w)
       = children l ++ [player_message (trim v); dm_message text].
Proof.
  intros Hv Hl Ht He. unfold after_submit.
  rewrite (onSubmit_sent env w v l encoded Hv Hl Ht He). cbv zeta.
  set (w1 := sent (trim v) encoded l (set_defaultPrevented true w)).
  assert (Hreq : requests w1 = requests w ++ [send_request encoded]) by reflexivity.
  split.
  - destruct (server env (send_request encoded)) as [e|response].
    { now rewrite (reportError_same_requests e env w1). }
    destruct (json_body response) as [e|data].
    { now rewrite (reportError_same_requests e env w1). }
    now rewrite (rendering_same_requests data env w1).
  - intros response data text -> -> Hs. unfold try_catch.
    erewrite bind_inr by (eapply renderResponse_shows; [eassumption | reflexivity]).
    erewrite scrollToBottom_some by reflexivity.
    cbn. now rewrite <- app_assoc.
Qed.

(** The theorem at the command " /roll 1d20+DEX ", answered with a roll. *)
Lemma submit_posts_and_renders_witness :
  requests (after_submit (answering (inr roll_response)) (game_page (lit " /roll 1d20+DEX ")))
  = [send_request "%2Froll%201d20%2BDEX"]
  /\ messages (after_submit (answering (inr roll_response)) (game_page (lit " /roll 1d20+DEX ")))
     = [dm_message (lit "Welcome."); player_message (lit "/roll 1d20+DEX");
        dm_message (lit "1d20+2 = 17")].
Proof.
  assert (Hne : trim (lit " /roll 1d20+DEX ") <> []) by (vm_compute; discriminate).
  destruct (submit_posts_and_renders_known (answering (inr roll_response))
              (game_page (lit " /roll 1d20+DEX ")) (lit " /roll 1d20+DEX ")
              {| children := [dm_message (lit "Welcome.")]; scrollTop := 0 |}
              "%2Froll%201d20%2BDEX" eq_refl eq_refl Hne eq_refl) as [Hr Hm].
  split; [exact Hr|].
  exact (Hm {| json_body := inr roll_response |} roll_response (lit "1d20+2 = 17")
            eq_refl eq_refl
            (shows_roll roll_response (lit "1d20+2 = 17") (Json (JString (lit "roll")))
               (Json (JString (lit "1d20+2 = 17"))) eq_refl eq_refl eq_refl eq_refl)).
Defined.

(** C1, as stated, fails: the server answers the command "look" with a
    response of type status; the request is posted, and the log ends with
    the player's message: nothing was appended for the response. *)
Lemma unknown_type_is_not_rendered :
  messages (after_submit (answering (inr unknown_response)) (game_page (lit "look")))
  = [dm_message (lit "Welcome."); player_message (lit "look")]
  /\ ~ posts_and_renders (answering (inr unknown_response)) (game_page (lit "look")).
Proof.
  split; [reflexivity|]. intros H.
  destruct (H (lit "look") _ eq_refl eq_refl) as (encoded & He & _ & Hm).
  { vm_compute. discriminate. }
  vm_compute in He. injection He as <-.
  destruct (Hm _ unknown_response eq_refl eq_refl) as [m Habs].
  vm_compute in Habs. discriminate.
Qed.

(** C10, as amended. A response that parses as JSON to a value whose type
    field can be read (any value but null) and is none of roll, narrative
    and command: the log ends with the player's message, so neither a
    message of the DM nor an error message was appended, and nothing was
    written to the console. *)
Theorem other_type_is_dropped env w v l encoded response data :
  playerInput w = Some v -> messageLog w = Some l -> trim v <> [] ->
  encodeURIComponent (trim v) = Some encoded ->
  server env (send_request encoded) = inr response ->
  json_body response = inr data ->
  other_type data ->
  messages (after_submit env w) = children l ++ [player_message (trim v)]
  /\ console (after_submit env w) = console w.
Proof.
  intros Hv Hl Ht He Hs Hj Ho. unfold after_submit.
  rewrite (onSubmit_sent env w v l encoded Hv Hl Ht He). cbv zeta.
  rewrite Hs, Hj. unfold try_catch.
  erewrite bind_inr by (now apply renderResponse_other).
  erewrite scrollToBottom_some by reflexivity. split; reflexivity.
Qed.

(** The theorem at the command "look", answered with a response of type
    status. *)
Lemma other_type_is_dropped_witness :
  messages (after_submit (answering (inr unknown_response)) (game_page (lit "look")))
  = [dm_message (lit "Welcome."); player_message (lit "look")]
  /\ console (after_submit (answering (inr unknown_response)) (game_page (lit "look"))) = [].
Proof.
  refine (other_type_is_dropped (answering (inr unknown_response))
            (game_page (lit "look")) (lit "look")
            {| children := [dm_message (lit "Welcome.")]; scrollTop := 0 |}
            "look" {| json_body := inr unknown_response |} unknown_response
            eq_refl eq_refl _ eq_refl eq_refl eq_refl _).
  - vm_compute. discriminate.
  - exists (Json (JString (lit "status"))). repeat split.
Defined.

(** C10, as stated, fails: the server answers with the JSON value null;
    it parses, it has no type field at all, and reading the field throws:
    the handler appends its error message. *)
Lemma null_response_gets_error_message :
  messages (after_submit (answering (inr JNull)) (game_page (lit "look")))
  = [dm_message (lit "Welcome."); player_message (lit "look"); error_message]
  /\ ~ drops_silently (answering (inr JNull)) (game_page (lit "look")).
Proof.
  split; [reflexivity|]. intros H.
  specialize (H (lit "look") _ "look"%string {| json_body := inr JNull |} JNull
                eq_refl eq_refl).
  assert (Habs : messages (after_submit (answering (inr JNull)) (game_page (lit "look")))
                 = [dm_message (lit "Welcome.")] ++ [player_message (trim (lit "look"))]).
  { apply H; try reflexivity.
    - vm_compute. discriminate.
    - intros ty Hty. discriminate Hty. }
  vm_compute in Habs. discriminate.
Qed.

End ClientFacts.

Module EngineFacts.
Import Engine.

Local Open Scope nat_scope.

(** ** The definitions at work *)

Example duel_first_turn :
  snd (advanceTurn duel) = inr (1, 1)
  /\ log (fst (advanceTurn duel)) = [{| sequence := 0; kind := TurnAdvanced 1 |}].
Proof. split; reflexivity. Qed.

Example duel_second_round : snd (advanceTurn (fst (advanceTurn duel))) = inr (0, 2).
Proof. reflexivity. Qed.

Example second_standard_on_the_same_turn :
  snd (declareAction (fst (declareAction duel (declares "Standard" "A")))
         (declares "Standard" "A"))
  = inl ActionAlreadyUsedError.
Proof. reflexivity. Qed.

Example reaction_out_of_turn :
  snd (declareAction duel (declares "Reaction" "B")) = inr (declares "Reaction" "B").
Proof. reflexivity. Qed.

Example standard_out_of_turn :
  declareAction duel (declares "Standard" "B") = (duel, inl NotYourTurnError).
Proof. reflexivity. Qed.

Example second_standard_after_the_turn :
  snd (declareAction (fst (advanceTurn (fst (declareAction duel (declares "Standard" "A")))))
         (declares "Standard" "A"))
  = inl ActionAlreadyUsedError.
Proof. reflexivity. Qed.

Example declaration_in_terminal_encounter :
  declareAction won_duel (declares "Standard" "A") = (won_duel, inl EncounterTerminalError).
Proof. reflexivity. Qed.

Example unknown_action_type :
  declareAction duel (declares "Dodge" "A") = (duel, inl InvalidActionTypeError).
Proof. reflexivity. Qed.

Example defeated_side_is_terminal :
  advanceTurn {| order := [combatant "A" "heroes" 15 20; combatant "B" "monsters" 10 0];
                 round := 3; pointer := 0; log := [] |}
  = ({| order := [combatant "A" "heroes" 15 20; combatant "B" "monsters" 10 0];
        round := 3; pointer := 0; log := [] |}, inl EncounterTerminalError).
Proof. reflexivity. Qed.

(** ** Searching a range of positions *)

Section Positions.
Variable a : nat -> bool.

Lemma find_seq_some s c q :
  List.find a (seq s c) = Some q ->
  s <= q < s + c /\ a q = true /\ forall i, s <= i < q -> a i = false.
Proof.
  revert s. induction c as [|c IH]; intros s; cbn; [discriminate|].
  destruct (a s) eqn:Hs.
  - intros [= <-]. repeat split; [lia | lia | assumption | intros; lia].
  - intros H. destruct (IH _ H) as (Hr & Hq & Hlow). repeat split; [lia | lia | assumption |].
    intros i Hi. destruct (decide (i = s)) as [->|]; [assumption | apply Hlow; lia].
Qed.

Lemma find_seq_none s c :
  List.find a (seq s c) = None -> forall i, s <= i < s + c -> a i = false.
Proof.
  revert s. induction c as [|c IH]; intros s; cbn; [intros; lia|].
  destruct (a s) eqn:Hs; [discriminate|].
  intros H i Hi. destruct (decide (i = s)) as [->|]; [assumption | apply IH with (S s); [assumption | lia]].
Qed.

Lemma rank_S p : rank a (S p) = rank a p + (if a p then 1 else 0).
Proof.
  unfold rank. rewrite seq_S, List.filter_app, length_app. cbn.
  destruct (a p); reflexivity.
Qed.

Lemma rank_skip p q :
  p <= q -> (forall i, p <= i < q -> a i = false) -> rank a q = rank a p.
Proof.
  induction 1 as [|q Hle IH]; intros Hoff; [reflexivity|].
  rewrite rank_S, Hoff by lia. rewrite IH; [lia | intros; apply Hoff; lia].
Qed.

Lemma rank_mono p q : p <= q -> rank a p <= rank a q.
Proof.
  induction 1 as [|q Hle IH]; [lia|]. rewrite rank_S. lia.
Qed.

Lemma rank_lt p q : a p = true -> p < q -> rank a p < rank a q.
Proof.
  intros Hp Hlt. pose proof (rank_mono (S p) q Hlt) as H.
  rewrite rank_S, Hp in H. lia.
Qed.

Lemma rank_inj p q : a p = true -> a q = true -> rank a p = rank a q -> p = q.
Proof.
  intros Hp Hq Heq. destruct (Nat.lt_total p q) as [H|[H|H]]; [|assumption|].
  - pose proof (rank_lt p q Hp H). lia.
  - pose proof (rank_lt q p Hq H). lia.
Qed.

End Positions.

Lemma rank_ext a b p : (forall i, a i = b i) -> rank a p = rank b p.
Proof. intros H. unfold rank. f_equal. apply List.filter_ext. exact H. Qed.

Lemma active_at_lt o i : active_at o i = true -> i < length o.
Proof.
  unfold active_at. destruct (o !! i) eqn:H; [|discriminate].
  intros _. now apply lookup_lt_Some in H.
Qed.

Lemma active_count_rank e :
  active_count e = rank (active_at (order e)) (length (order e)).
Proof.
  unfold active_count, rank. generalize (order e) as o. clear e.
  induction o as [|c o IH] using rev_ind; [reflexivity|].
  rewrite List.filter_app, !length_app. cbn [length List.filter].
  rewrite Nat.add_1_r, seq_S, List.filter_app, length_app. cbn [List.filter].
  replace (active_at (o ++ [c]) (0 + length o)) with (is_active c).
  2:{ unfold active_at. now rewrite list_lookup_middle. }
  rewrite IH. f_equal.
  - f_equal. apply List.filter_ext_in. intros i Hi. apply in_seq in Hi.
    unfold active_at. rewrite lookup_app_l by lia. reflexivity.
  - destruct (is_active c); reflexivity.
Qed.

(** ** What [advanceTurn] leaves alone *)

Lemma is_active_set_slots s c : is_active (set_slots s c) = is_active c.
Proof. reflexivity. Qed.

Lemma active_at_reset o i : active_at (reset_slots o) i = active_at o i.
Proof.
  unfold active_at, reset_slots. rewrite list_lookup_fmap.
  destruct (o !! i); reflexivity.
Qed.

Lemma side_has_active_reset o s : side_has_active (reset_slots o) s = side_has_active o s.
Proof.
  unfold side_has_active, reset_slots.
  induction o as [|c o IH]; [reflexivity|]. cbn. now rewrite IH.
Qed.

Lemma terminal_reset e o :
  order e = reset_slots o -> terminal e = existsb (fun c => negb (side_has_active o (side c))) o.
Proof.
  intros H. unfold terminal. rewrite H.
  assert (G : forall l, existsb (fun c => negb (side_has_active (reset_slots o) (side c)))
                          (reset_slots l)
                        = existsb (fun c => negb (side_has_active o (side c))) l).
  { induction l as [|c l IH]; [reflexivity|]. cbn.
    rewrite side_has_active_reset. f_equal. exact IH. }
  apply G.
Qed.

Lemma same_standing_refl e : same_standing e e.
Proof. repeat split. Qed.

Lemma same_standing_trans e1 e2 e3 :
  same_standing e1 e2 -> same_standing e2 e3 -> same_standing e1 e3.
Proof.
  intros (L1 & A1 & T1) (L2 & A2 & T2). repeat split; [congruence | | congruence].
  intros i. now rewrite A2, A1.
Qed.

Lemma same_standing_order e e' : order e' = order e -> same_standing e e'.
Proof. intros H. unfold same_standing, terminal. rewrite H. repeat split. Qed.

Lemma same_standing_reset e e' : order e' = reset_slots (order e) -> same_standing e e'.
Proof.
  intros H. repeat split.
  - rewrite H. unfold reset_slots. apply length_fmap.
  - intros i. rewrite H. apply active_at_reset.
  - now rewrite (terminal_reset e' (order e)).
Qed.

(** ** One call of [advanceTurn] *)

(** From an active position of a non-terminal encounter, the call succeeds.
    Either the pointer moves to the active position of the next rank within
    the round, or it was on the last one: it wraps to the first, and the
    round number grows by one. *)
Lemma advanceTurn_step e :
  terminal e = false ->
  active_at (order e) (pointer e) = true ->
  exists e' res,
    advanceTurn e = (e', inr res)
    /\ same_standing e e'
    /\ active_at (order e) (pointer e') = true
    /\ ((S (rank (active_at (order e)) (pointer e)) < active_count e
         /\ rank (active_at (order e)) (pointer e')
            = S (rank (active_at (order e)) (pointer e))
         /\ round e' = round e)
        \/ (S (rank (active_at (order e)) (pointer e)) = active_count e
            /\ rank (active_at (order e)) (pointer e') = 0
            /\ round e' = S (round e))).
Proof.
  intros Hterm Hp. rewrite active_count_rank.
  set (a := active_at (order e)) in *. set (n := length (order e)).
  assert (Hpn : pointer e < n) by now apply active_at_lt.
  unfold advanceTurn, next_active, first_active. rewrite Hterm. fold a. fold n.
  destruct (List.find a (seq (S (pointer e)) (n - S (pointer e)))) as [q|] eqn:Hafter.
  - apply find_seq_some in Hafter as (Hq & Haq & Hoff).
    eexists _, _. split; [reflexivity|]. cbn.
    split; [now apply same_standing_order|]. split; [assumption|]. left.
    assert (Hr : rank a q = S (rank a (pointer e))).
    { rewrite (rank_skip a (S (pointer e)) q) by (try lia; intros; apply Hoff; lia).
      rewrite rank_S, Hp. lia. }
    split; [|split; [assumption | reflexivity]].
    pose proof (rank_lt a q n Haq ltac:(lia)). lia.
  - pose proof (find_seq_none a _ _ Hafter) as Hoff.
    assert (Hn : rank a n = S (rank a (pointer e))).
    { rewrite (rank_skip a (S (pointer e)) n) by (try lia; intros; apply Hoff; lia).
      rewrite rank_S, Hp. lia. }
    destruct (List.find a (seq 0 (S (pointer e)))) as [q|] eqn:Hwrap.
    + apply find_seq_some in Hwrap as (Hq & Haq & Hlow).
      eexists _, _. split; [reflexivity|]. cbn.
      split; [now apply same_standing_reset|]. split; [assumption|]. right.
      split; [lia|]. split; [|reflexivity].
      exact (rank_skip a 0 q (Nat.le_0_l q) Hlow).
    + pose proof (find_seq_none a _ _ Hwrap (pointer e) ltac:(lia)). congruence.
Qed.

Lemma same_standing_rank e e' p :
  same_standing e e' -> rank (active_at (order e')) p = rank (active_at (order e)) p.
Proof. intros (_ & H & _). now apply rank_ext. Qed.

Lemma same_standing_count e e' : same_standing e e' -> active_count e' = active_count e.
Proof.
  intros H. rewrite !active_count_rank. destruct H as (L & A & _).
  rewrite L. now apply rank_ext.
Qed.

(** ** [advanceTurn] called [j] times *)

(** With [N] active combatants and the pointer on the one of rank [k], the
    [j] calls succeed; writing [k + j = q * N + r] with [r < N], the pointer
    ends on the active position of rank [r], [q] rounds later. *)
Lemma advanceTurns_rank j : forall e,
  terminal e = false ->
  active_at (order e) (pointer e) = true ->
  exists e' q r,
    advanceTurns j e = inr e'
    /\ same_standing e e'
    /\ active_at (order e) (pointer e') = true
    /\ rank (active_at (order e)) (pointer e) + j = q * active_count e + r
    /\ r < active_count e
    /\ rank (active_at (order e)) (pointer e') = r
    /\ round e' = round e + q.
Proof.
  induction j as [|j IH]; intros e Hterm Hp.
  - exists e, 0, (rank (active_at (order e)) (pointer e)).
    split; [reflexivity|]. split; [apply same_standing_refl|]. split; [assumption|].
    split; [lia|]. split; [|split; [reflexivity | lia]].
    rewrite active_count_rank. apply rank_lt; [assumption | now apply active_at_lt].
  - destruct (advanceTurn_step e Hterm Hp) as (e1 & res & Hcall & Hsame & Hp1 & Hcase).
    assert (Hterm1 : terminal e1 = false) by (destruct Hsame as (_ & _ & ->); assumption).
    assert (Hact1 : active_at (order e1) (pointer e1) = true)
      by (destruct Hsame as (_ & -> & _); assumption).
    destruct (IH e1 Hterm1 Hact1) as (e' & q & r & Hrun & Hsame' & Hp' & Hsum & Hr & Hrank & Hround).
    rewrite (same_standing_count e e1 Hsame) in Hsum, Hr.
    rewrite !(same_standing_rank e e1) in Hsum, Hrank by assumption.
    destruct Hsame as (L & A & T). rewrite A in Hp'.
    assert (Hsame1 : same_standing e e')
      by (eapply same_standing_trans; [|eassumption]; repeat split; assumption).
    cbn [advanceTurns]. rewrite Hcall.
    destruct Hcase as [(Hlt & Hnext & Hrd) | (Hlast & Hnext & Hrd)].
    + exists e', q, r.
      split; [assumption|]. split; [assumption|]. split; [assumption|].
      split; [lia|]. split; [assumption|]. split; [assumption | lia].
    + exists e', (S q), r.
      split; [assumption|]. split; [assumption|]. split; [assumption|].
      split; [lia|]. split; [assumption|]. split; [assumption | lia].
Qed.

(** ** The claims about the turn order *)

(** C5, as amended. In a non-terminal encounter whose turn pointer is on an
    active combatant, [advanceTurn] called as many times as there are active
    combatants succeeds every time, returns the pointer to its position and
    leaves the round number greater by exactly one. *)
Theorem advanceTurn_full_cycle e :
  terminal e = false ->
  active_at (order e) (pointer e) = true ->
  exists e', advanceTurns (active_count e) e = inr e'
    /\ pointer e' = pointer e /\ round e' = S (round e).
Proof.
  intros Hterm Hp.
  destruct (advanceTurns_rank (active_count e) e Hterm Hp)
    as (e' & q & r & Hrun & _ & Hp' & Hsum & Hr & Hrank & Hround).
  assert (Hk : rank (active_at (order e)) (pointer e) < active_count e).
  { rewrite active_count_rank. apply rank_lt; [assumption | now apply active_at_lt]. }
  assert (Hq : q = 1) by nia. subst q.
  exists e'. split; [assumption|]. split; [|lia].
  apply (rank_inj (active_at (order e))); [assumption | assumption | lia].
Qed.

(** The theorem at the duel of A and B: two calls, and A is up again in
    round 2. *)
Lemma advanceTurn_full_cycle_witness :
  exists e', advanceTurns 2 duel = inr e' /\ pointer e' = 0 /\ round e' = 2.
Proof. exact (advanceTurn_full_cycle duel eq_refl eq_refl). Defined.

(** C5, as stated, fails: the first combatant in the order has no hit
    points left and the pointer is on it, as [startEncounter] leaves it
    (index 0); two combatants are active and no side is defeated.  Two
    calls move the pointer to B and then to C: it is at index 2, not 0, and
    the round is still 1. *)
Lemma fallen_first_does_not_return :
  terminal fallen_first = false
  /\ active_count fallen_first = 2
  /\ (exists e', advanceTurns 2 fallen_first = inr e' /\ pointer e' = 2 /\ round e' = 1)
  /\ ~ full_cycle_returns fallen_first.
Proof.
  split; [reflexivity|]. split; [reflexivity|]. split.
  - eexists. split; [reflexivity|]. split; reflexivity.
  - intros H. destruct (H eq_refl) as (e' & Hrun & Hp & _).
    vm_compute in Hrun. injection Hrun as <-. discriminate Hp.
Qed.

(** ** The shapes of the two operations *)

(** A call of [advanceTurn] fails and changes nothing, or moves the pointer
    within the round, or wraps into the next round with fresh slots. *)
Lemma advanceTurn_cases e :
  (exists err, advanceTurn e = (e, inl err))
  \/ (exists e' res next,
        advanceTurn e = (e', inr res)
        /\ order e' = order e /\ round e' = round e
        /\ log e' = log e ++ [{| sequence := length (log e); kind := TurnAdvanced next |}])
  \/ (exists e' res next,
        advanceTurn e = (e', inr res)
        /\ order e' = reset_slots (order e) /\ round e' = S (round e)
        /\ log e' = log e ++ [{| sequence := length (log e);
                                 kind := RoundAdvanced (S (round e)) |};
                              {| sequence := S (length (log e));
                                 kind := TurnAdvanced next |}]).
Proof.
  unfold advanceTurn. destruct (terminal e); [left; eauto|].
  destruct (next_active e) as [[next [|]]|]; [| |left; eauto].
  - right. right. eexists _, _, next. split; [reflexivity|]. cbn.
    repeat split. rewrite <- app_assoc. cbn. rewrite length_app. cbn.
    now rewrite Nat.add_1_r.
  - right. left. eexists _, _, next. split; [reflexivity|]. cbn. repeat split.
Qed.

(** A call of [declareAction] fails and changes nothing, or consumes one
    available slot of the combatant it acts from and logs the declaration. *)
Lemma declareAction_cases e d :
  (exists err, declareAction e d = (e, inl err))
  \/ (exists e' t i c,
        declareAction e d = (e', inr d)
        /\ parse_action_type (action_type d) = Some t
        /\ (terminal e = false /\ position_of (actor d) (order e) = Some i
            /\ in_turn e t i = true)
        /\ order e !! i = Some c
        /\ available t (slots c) = true
        /\ order e' = <[i := set_slots (consume t (slots c)) c]> (order e)
        /\ round e' = round e /\ pointer e' = pointer e
        /\ log e' = log e ++ [{| sequence := length (log e); kind := ActionDeclared d |}]).
Proof.
  unfold declareAction.
  destruct (parse_action_type (action_type d)) as [t|] eqn:Ht; [|left; eauto].
  destruct (terminal e) eqn:Hterm; [left; eauto|].
  destruct (position_of (actor d) (order e)) as [i|] eqn:Hi; [|left; eauto].
  destruct (order e !! i) as [c|] eqn:Hc; [|left; eauto].
  destruct (available t (slots c)) eqn:Ha; cbn [negb]; [|left; eauto].
  destruct (in_turn e t i) eqn:Hturn; cbn [negb]; [|left; eauto].
  right. exists (fst (emit (set_order (<[i := set_slots (consume t (slots c)) c]> (order e)) e)
                        (ActionDeclared d))), t, i, c.
  repeat split; first [assumption | reflexivity].
Qed.





(** ** The combat log under the operations *)

Lemma emit_appends e k :
  log (fst (emit e k)) = log e ++ [{| sequence := snd (emit e k); kind := k |}].
Proof. reflexivity. Qed.

Lemma advanceTurn_log e : log e `prefix_of` log (fst (advanceTurn e)).
Proof.
  destruct (advanceTurn_cases e)
    as [(err & ->) | [(e' & res & next & -> & _ & _ & Hl) | (e' & res & next & -> & _ & _ & Hl)]];
    cbn [fst]; [reflexivity | rewrite Hl; now eexists ..].
Qed.

Lemma declareAction_log e d : log e `prefix_of` log (fst (declareAction e d)).
Proof.
  destruct (declareAction_cases e d)
    as [(err & ->) | (e' & t & i & c & -> & _ & _ & _ & _ & _ & _ & _ & Hl)];
    cbn [fst]; [reflexivity | rewrite Hl; now eexists].
Qed.

Lemma apply_log e op : log e `prefix_of` log (apply e op).
Proof. destruct op; [apply advanceTurn_log | apply declareAction_log]. Qed.

Lemma run_log ops : forall e, log e `prefix_of` log (run ops e).
Proof.
  induction ops as [|op ops IH]; intros e; cbn; [reflexivity|].
  etransitivity; [apply apply_log | apply IH].
Qed.

(** ** A consumed slot within its round *)









(** ** The claims about the action economy *)



End EngineFacts.


Module HandlerFacts.
Import Client ClientFacts.

Local Open Scope N_scope.

(** ** The handler against its outcome *)

Lemma get_thrown v key e env w :
  get_property v (lit key) = inl e -> get v key env w = (inl e, w).
Proof. intros H. unfold get, lift. now rewrite H. Qed.

Lemma createMessage_throws cls v env w :
  dom_string v = None -> createMessage cls v env w = (inl TypeError, w).
Proof. intros H. unfold createMessage. rewrite H. reflexivity. Qed.

(** Reading a field and appending it as a message of the DM. *)
Lemma show_field (r : Exn + value) l env w :
  messageLog w = Some l ->
  (fun env w =>
     match r with
     | inl e => (inl e, w)
     | inr v => (dmMessage ← createMessage "message dm-message" v;
                 messageLog_appendChild dmMessage) env w
     end) env w
  = match field_outcome r with
    | Rendered text => (inr tt, set_messageLog (Some (with_message (dm_message text) l)) w)
    | Dropped => (inr tt, w)
    | Reported e => (inl e, w)
    end.
Proof.
  intros Hl. destruct r as [e|v]; cbn [field_outcome]; [reflexivity|].
  destruct (dom_string v) as [text|] eqn:Hv.
  - erewrite bind_inr by (apply createMessage_text; eassumption).
    now apply appendChild_some.
  - erewrite bind_inl by (apply createMessage_throws; assumption). reflexivity.
Qed.

Lemma bind_get {B : Type} v key (f : value -> JS B) env w :
  (get v key ≫= f) env w
  = match get_property v (lit key) with
    | inl e => (inl e, w)
    | inr x => f x env w
    end.
Proof. unfold mbind, JS_bind, get, lift. now destruct (get_property v (lit key)). Qed.

Lemma renderResponse_outcome data l env w :
  messageLog w = Some l ->
  renderResponse data env w
  = match render_outcome data with
    | Rendered text => (inr tt, set_messageLog (Some (with_message (dm_message text) l)) w)
    | Dropped => (inr tt, w)
    | Reported e => (inl e, w)
    end.
Proof.
  intros Hl. unfold renderResponse, render_outcome. rewrite bind_get.
  destruct (get_property (Json data) (lit "type")) as [e|ty] eqn:Hty; [reflexivity|].
  destruct (strict_equals ty "roll").
  { rewrite bind_get.
    apply (show_field (get_property (Json data) (lit "formatted")) l env w Hl). }
  rewrite bind_get, Hty. destruct (strict_equals ty "narrative").
  { rewrite bind_get.
    apply (show_field (get_property (Json data) (lit "response")) l env w Hl). }
  rewrite bind_get, Hty. destruct (strict_equals ty "command"); [|reflexivity].
  rewrite bind_get.
  destruct (get_property (Json data) (lit "result")) as [e|result]; [reflexivity|].
  rewrite bind_get.
  apply (show_field (get_property result (lit "message")) l env w Hl).
Qed.

(** A submission of a command that is not blank, on a page with the input
    field and the log: the promise is fulfilled and the world is the
    settled one. *)
Lemma onSubmit_settled env w v l :
  playerInput w = Some v -> messageLog w = Some l -> trim v <> [] ->
  onSubmit env w = (inr tt, settled env (trim v) l w).
Proof.
  intros Hv Hl Ht. unfold settled, exchange.
  destruct (encodeURIComponent (trim v)) as [encoded|] eqn:He.
  - rewrite (onSubmit_sent env w v l encoded Hv Hl Ht He). cbv zeta.
    destruct (server env (send_request encoded)) as [e|response].
    { erewrite reportError_some by reflexivity. reflexivity. }
    destruct (json_body response) as [e|data].
    { erewrite reportError_some by reflexivity. reflexivity. }
    unfold try_catch. unfold mbind at 1, JS_bind at 1.
    erewrite renderResponse_outcome by reflexivity.
    destruct (render_outcome data) as [text| |e].
    + erewrite scrollToBottom_some by reflexivity. reflexivity.
    + erewrite scrollToBottom_some by reflexivity. reflexivity.
    + erewrite reportError_some by reflexivity. reflexivity.
  - unfold onSubmit.
    erewrite bind_inr by reflexivity.
    erewrite bind_inr by (unfold playerInput_value; cbn; rewrite Hv; reflexivity).
    cbv zeta. destruct (trim v) as [|c rest] eqn:Hinput; [congruence|].
    cbn [falsy_string]. unfold try_catch, sendCommand.
    erewrite bind_inr by apply createMessage_string.
    erewrite bind_inr by (apply appendChild_some; cbn; eassumption).
    erewrite bind_inr by (unfold set_playerInput_value; cbn; rewrite Hv; reflexivity).
    rewrite He. erewrite bind_inl by reflexivity.
    erewrite reportError_some by reflexivity. reflexivity.
Qed.

Lemma onSubmit_blank env w v :
  playerInput w = Some v -> trim v = [] ->
  onSubmit env w = (inr tt, set_defaultPrevented true w).
Proof.
  intros Hv Ht. unfold onSubmit.
  erewrite bind_inr by reflexivity.
  erewrite bind_inr by (unfold playerInput_value; cbn; rewrite Hv; reflexivity).
  cbv zeta. rewrite Ht. reflexivity.
Qed.

Lemma onSubmit_without_input env w :
  playerInput w = None ->
  onSubmit env w = (inl TypeError, set_defaultPrevented true w).
Proof.
  intros Hv. unfold onSubmit.
  erewrite bind_inr by reflexivity.
  erewrite bind_inl by (unfold playerInput_value; cbn; rewrite Hv; reflexivity).
  reflexivity.
Qed.

Lemma onSubmit_without_log env w v :
  playerInput w = Some v -> trim v <> [] -> messageLog w = None ->
  onSubmit env w
  = (inl TypeError, set_console (console w ++ [TypeError]) (set_defaultPrevented true w)).
Proof.
  intros Hv Ht Hl. unfold onSubmit.
  erewrite bind_inr by reflexivity.
  erewrite bind_inr by (unfold playerInput_value; cbn; rewrite Hv; reflexivity).
  cbv zeta. destruct (trim v) as [|c rest] eqn:Hinput; [congruence|].
  cbn [falsy_string]. unfold try_catch, sendCommand.
  erewrite bind_inr by apply createMessage_string.
  erewrite bind_inl by (unfold messageLog_appendChild; cbn; rewrite Hl; reflexivity).
  unfold reportError.
  erewrite bind_inr by reflexivity.
  erewrite bind_inr by apply createMessage_string.
  unfold messageLog_appendChild. cbn. rewrite Hl. reflexivity.
Qed.

(** ** Pages that lack an element *)

(** X1. On a page without the input field the handler throws at line 13,
    outside [try]: its promise is rejected with a TypeError, and nothing
    but the prevented default has happened: no message, no request, no
    console entry. *)
Theorem missing_input_rejects env w :
  playerInput w = None ->
  onSubmit env w = (inl TypeError, set_defaultPrevented true w).
Proof. apply onSubmit_without_input. Qed.

(** The theorem at a page that has the log only. *)
Lemma missing_input_rejects_witness :
  onSubmit (answering (inr roll_response)) (set_playerInput None (game_page []))
  = (inl TypeError, set_defaultPrevented true (set_playerInput None (game_page []))).
Proof.
  exact (missing_input_rejects (answering (inr roll_response))
           (set_playerInput None (game_page [])) eq_refl).
Defined.

(** X2. On a page without the message log a command that is not blank
    makes [appendChild] throw inside [try], and again inside [catch]: the
    promise is rejected with a TypeError after one console entry; the
    input keeps its text and no request is sent. *)
Theorem missing_log_rejects env w v :
  playerInput w = Some v -> trim v <> [] -> messageLog w = None ->
  fst (onSubmit env w) = inl TypeError
  /\ console (after_submit env w) = console w ++ [TypeError]
  /\ playerInput (after_submit env w) = Some v
  /\ requests (after_submit env w) = requests w.
Proof.
  intros Hv Ht Hl. unfold after_submit.
  rewrite (onSubmit_without_log env w v Hv Ht Hl). cbn. now rewrite Hv.
Qed.

(** The theorem at a page that has the input field only. *)
Lemma missing_log_rejects_witness :
  fst (onSubmit (answering (inr roll_response)) (set_messageLog None (game_page (lit "look"))))
  = inl TypeError
  /\ console (after_submit (answering (inr roll_response))
                (set_messageLog None (game_page (lit "look")))) = [TypeError]
  /\ playerInput (after_submit (answering (inr roll_response))
                    (set_messageLog None (game_page (lit "look")))) = Some (lit "look")
  /\ requests (after_submit (answering (inr roll_response))
                 (set_messageLog None (game_page (lit "look")))) = [].
Proof.
  refine (missing_log_rejects (answering (inr roll_response))
            (set_messageLog None (game_page (lit "look"))) (lit "look") eq_refl _ eq_refl).
  vm_compute. discriminate.
Defined.

(** ** Pages with the input field and the log *)

(** X3. On a page with the input field and the log the promise of the
    handler is always fulfilled: whatever is typed and whatever the server
    does, every exception is caught. *)
Theorem full_page_never_rejects env w v l :
  playerInput w = Some v -> messageLog w = Some l ->
  fst (onSubmit env w) = inr tt.
Proof.
  intros Hv Hl. destruct (trim v) as [|c rest] eqn:Ht.
  - now rewrite (onSubmit_blank env w v Hv Ht).
  - rewrite (onSubmit_settled env w v l Hv Hl); [reflexivity | congruence].
Qed.

(** The theorem at a server that refuses the connection. *)
Lemma full_page_never_rejects_witness :
  fst (onSubmit {| server := fun _ => inl TypeError; scrollHeight := fun _ => 0%Z;
              scrollTopMax := fun _ => 0%Z |}
         (game_page (lit "look")))
  = inr tt.
Proof.
  exact (full_page_never_rejects
           {| server := fun _ => inl TypeError; scrollHeight := fun _ => 0%Z;
              scrollTopMax := fun _ => 0%Z |}
           (game_page (lit "look")) (lit "look")
           {| children := [dm_message (lit "Welcome.")]; scrollTop := 0 |} eq_refl eq_refl).
Defined.

(** X4. A command that is not blank empties the input field, whatever
    becomes of the request: the text is gone also when the command could
    not be sent or the server failed. *)
Theorem input_is_cleared env w v l :
  playerInput w = Some v -> messageLog w = Some l -> trim v <> [] ->
  playerInput (after_submit env w) = Some [].
Proof.
  intros Hv Hl Ht. unfold after_submit. rewrite (onSubmit_settled env w v l Hv Hl Ht).
  unfold settled. cbn [snd].
  destruct (encodeURIComponent (trim v)), (exchange env (trim v)); reflexivity.
Qed.

(** The theorem at a server that refuses the connection. *)
Lemma input_is_cleared_witness :
  playerInput (after_submit {| server := fun _ => inl TypeError; scrollHeight := fun _ => 0%Z;
              scrollTopMax := fun _ => 0%Z |}
                 (game_page (lit "look")))
  = Some [].
Proof.
  refine (input_is_cleared
            {| server := fun _ => inl TypeError; scrollHeight := fun _ => 0%Z;
              scrollTopMax := fun _ => 0%Z |}
            (game_page (lit "look")) (lit "look")
            {| children := [dm_message (lit "Welcome.")]; scrollTop := 0 |} eq_refl eq_refl _).
  vm_compute. discriminate.
Defined.

(** X5. A command that is not blank adds the player's message and at most
    one message more.  There are three ways a run can end: the response is
    dropped, or rendered as one message of the DM, both without a console
    entry; or the error message is appended and exactly one error is
    written to the console. *)
Theorem submission_ends_three_ways env w v l :
  playerInput w = Some v -> messageLog w = Some l -> trim v <> [] ->
  (messages (after_submit env w) = children l ++ [player_message (trim v)]
   /\ console (after_submit env w) = console w)
  \/ (exists text,
        messages (after_submit env w)
        = children l ++ [player_message (trim v); dm_message text]
        /\ console (after_submit env w) = console w)
  \/ (exists e,
        messages (after_submit env w)
        = children l ++ [player_message (trim v); error_message]
        /\ console (after_submit env w) = console w ++ [e]).
Proof.
  intros Hv Hl Ht. unfold after_submit. rewrite (onSubmit_settled env w v l Hv Hl Ht).
  unfold settled, messages. cbn [snd].
  destruct (exchange env (trim v)) as [text| |e].
  - right. left. exists text.
    destruct (encodeURIComponent (trim v)); cbn; now rewrite <- app_assoc.
  - left. destruct (encodeURIComponent (trim v)); cbn; split; reflexivity.
  - right. right. exists e.
    destruct (encodeURIComponent (trim v)); cbn; now rewrite <- app_assoc.
Qed.

(** The theorem at the command "look", answered with text that is not
    JSON: the third way. *)
Lemma submission_ends_three_ways_witness :
  (messages (after_submit (answering (inl SyntaxError)) (game_page (lit "look")))
   = [dm_message (lit "Welcome.")] ++ [player_message (trim (lit "look"))]
   /\ console (after_submit (answering (inl SyntaxError)) (game_page (lit "look"))) = [])
  \/ (exists text,
        messages (after_submit (answering (inl SyntaxError)) (game_page (lit "look")))
        = [dm_message (lit "Welcome.")] ++ [player_message (trim (lit "look")); dm_message text]
        /\ console (after_submit (answering (inl SyntaxError)) (game_page (lit "look"))) = [])
  \/ (exists e,
        messages (after_submit (answering (inl SyntaxError)) (game_page (lit "look")))
        = [dm_message (lit "Welcome.")] ++ [player_message (trim (lit "look")); error_message]
        /\ console (after_submit (answering (inl SyntaxError)) (game_page (lit "look")))
           = [] ++ [e]).
Proof.
  refine (submission_ends_three_ways (answering (inl SyntaxError)) (game_page (lit "look"))
            (lit "look") {| children := [dm_message (lit "Welcome.")]; scrollTop := 0 |}
            eq_refl eq_refl _).
  vm_compute. discriminate.
Defined.

(** X6. On a page with the input field and the log, line 56 runs exactly
    on the runs that report nothing: after a rendered or dropped response
    [scrollTop] has been assigned the [scrollHeight] of the new log, which
    the browser keeps within what the log can scroll; when the error
    message is appended the line has been skipped and [scrollTop] is what
    it was. *)
Theorem scrolls_unless_reported env w v l :
  playerInput w = Some v -> messageLog w = Some l -> trim v <> [] ->
  exists l', messageLog (after_submit env w) = Some l'
    /\ ((console (after_submit env w) = console w
         /\ scrollTop l'
            = Z.max 0 (Z.min (scrollHeight env (children l'))
                             (scrollTopMax env (children l'))))
        \/ (exists e, console (after_submit env w) = console w ++ [e]
              /\ scrollTop l' = scrollTop l)).
Proof.
  intros Hv Hl Ht. unfold after_submit. rewrite (onSubmit_settled env w v l Hv Hl Ht).
  unfold settled. cbn [snd].
  destruct (exchange env (trim v)) as [text| |e];
    destruct (encodeURIComponent (trim v)); cbn; eexists; split; try reflexivity;
    first [left; split; reflexivity | right; exists e; split; reflexivity].
Qed.

(** The theorem at a rendered roll: three messages of height 20 in a box
    of height 50 leave the log scrolled to 10. *)
Lemma scrolls_unless_reported_witness :
  exists l',
    messageLog (after_submit (answering (inr roll_response)) (game_page (lit "/roll 1d20+DEX")))
    = Some l'
    /\ ((console (after_submit (answering (inr roll_response))
                    (game_page (lit "/roll 1d20+DEX"))) = []
         /\ scrollTop l'
            = Z.max 0 (Z.min (scrollHeight (answering (inr roll_response)) (children l'))
                             (scrollTopMax (answering (inr roll_response)) (children l'))))
        \/ (exists e, console (after_submit (answering (inr roll_response))
                                 (game_page (lit "/roll 1d20+DEX"))) = [] ++ [e]
              /\ scrollTop l' = 0%Z)).
Proof.
  refine (scrolls_unless_reported (answering (inr roll_response))
            (game_page (lit "/roll 1d20+DEX")) (lit "/roll 1d20+DEX")
            {| children := [dm_message (lit "Welcome.")]; scrollTop := 0 |}
            eq_refl eq_refl _).
  vm_compute. discriminate.
Defined.

(** ** Failures *)

(** X7. When the request is rejected, or its response is not JSON, the
    request has left all the same, the error is written to the console,
    and the log ends with the player's message and the error message. *)
Theorem failed_exchange_is_reported env w v l encoded e :
  playerInput w = Some v -> messageLog w = Some l -> trim v <> [] ->
  encodeURIComponent (trim v) = Some encoded ->
  server env (send_request encoded) = inl e
  \/ (exists response, server env (send_request encoded) = inr response
                       /\ json_body response = inl e) ->
  requests (after_submit env w) = requests w ++ [send_request encoded]
  /\ console (after_submit env w) = console w ++ [e]
  /\ messages (after_submit env w)
     = children l ++ [player_message (trim v); error_message].
Proof.
  intros Hv Hl Ht He Hfail. unfold after_submit.
  rewrite (onSubmit_settled env w v l Hv Hl Ht). unfold settled, exchange, messages.
  rewrite He. cbn [snd].
  assert (Hx : match server env (send_request encoded) with
               | inl e => Reported e
               | inr response =>
                 match json_body response with
                 | inl e => Reported e
                 | inr data => render_outcome data
                 end
               end = Reported e).
  { destruct Hfail as [-> | (response & -> & ->)]; reflexivity. }
  rewrite Hx. cbn. now rewrite <- app_assoc.
Qed.

(** The theorem at a response that is not JSON. *)
Lemma failed_exchange_is_reported_witness :
  requests (after_submit (answering (inl SyntaxError)) (game_page (lit "look")))
  = [] ++ [send_request "look"]
  /\ console (after_submit (answering (inl SyntaxError)) (game_page (lit "look")))
     = [] ++ [SyntaxError]
  /\ messages (after_submit (answering (inl SyntaxError)) (game_page (lit "look")))
     = [dm_message (lit "Welcome.")] ++ [player_message (trim (lit "look")); error_message].
Proof.
  refine (failed_exchange_is_reported (answering (inl SyntaxError)) (game_page (lit "look"))
            (lit "look") {| children := [dm_message (lit "Welcome.")]; scrollTop := 0 |}
            "look" SyntaxError eq_refl eq_refl _ eq_refl _).
  - vm_compute. discriminate.
  - right. exists {| json_body := inl SyntaxError |}. split; reflexivity.
Defined.

(** X8. A command that [encodeURIComponent] refuses (an unpaired
    surrogate) is echoed in the log but never sent: no request leaves, a
    URIError is written to the console, and the error message follows the
    player's message. *)
Theorem unencodable_command_is_not_sent env w v l :
  playerInput w = Some v -> messageLog w = Some l -> trim v <> [] ->
  encodeURIComponent (trim v) = None ->
  requests (after_submit env w) = requests w
  /\ console (after_submit env w) = console w ++ [URIError]
  /\ messages (after_submit env w)
     = children l ++ [player_message (trim v); error_message].
Proof.
  intros Hv Hl Ht He. unfold after_submit.
  rewrite (onSubmit_settled env w v l Hv Hl Ht). unfold settled, exchange, messages.
  rewrite He. cbn. now rewrite <- app_assoc.
Qed.

(** The theorem at a command that ends in a lead surrogate. *)
Lemma unencodable_command_is_not_sent_witness :
  requests (after_submit (answering (inr roll_response)) (game_page [0x61; 0xD800])) = []
  /\ console (after_submit (answering (inr roll_response)) (game_page [0x61; 0xD800]))
     = [] ++ [URIError]
  /\ messages (after_submit (answering (inr roll_response)) (game_page [0x61; 0xD800]))
     = [dm_message (lit "Welcome.")] ++ [player_message (trim [0x61; 0xD800]); error_message].
Proof.
  refine (unencodable_command_is_not_sent (answering (inr roll_response))
            (game_page [0x61; 0xD800]) [0x61; 0xD800]
            {| children := [dm_message (lit "Welcome.")]; scrollTop := 0 |}
            eq_refl eq_refl _ eq_refl).
  vm_compute. discriminate.
Defined.

(** X9. A response of type command whose result is missing or null makes
    [data.result.message] throw: no message of the DM is appended, the
    TypeError is written to the console and the error message is shown. *)
Theorem command_without_result_is_reported env w v l encoded response data ty result :
  playerInput w = Some v -> messageLog w = Some l -> trim v <> [] ->
  encodeURIComponent (trim v) = Some encoded ->
  server env (send_request encoded) = inr response ->
  json_body response = inr data ->
  get_property (Json data) (lit "type") = inr ty ->
  strict_equals ty "command" = true ->
  get_property (Json data) (lit "result") = inr result ->
  result = Undefined \/ result = Json JNull ->
  console (after_submit env w) = console w ++ [TypeError]
  /\ messages (after_submit env w)
     = children l ++ [player_message (trim v); error_message].
Proof.
  intros Hv Hl Ht He Hs Hj Hty Hc Hr Hnone. unfold after_submit.
  rewrite (onSubmit_settled env w v l Hv Hl Ht). unfold settled, exchange, messages.
  rewrite He, Hs, Hj. unfold render_outcome. rewrite Hty, Hr.
  apply strict_equals_lit in Hc as ->. cbn [strict_equals].
  rewrite !bool_decide_eq_false_2 by discriminate.
  rewrite bool_decide_eq_true_2 by reflexivity.
  destruct Hnone as [-> | ->]; cbn; now rewrite <- app_assoc.
Qed.

(** The theorem at the response [{"type": "command"}]. *)
Lemma command_without_result_is_reported_witness :
  console (after_submit (answering (inr (JObject [(lit "type", JString (lit "command"))])))
             (game_page (lit "/stats")))
  = [] ++ [TypeError]
  /\ messages (after_submit (answering (inr (JObject [(lit "type", JString (lit "command"))])))
                 (game_page (lit "/stats")))
     = [dm_message (lit "Welcome.")] ++ [player_message (trim (lit "/stats")); error_message].
Proof.
  refine (command_without_result_is_reported
            (answering (inr (JObject [(lit "type", JString (lit "command"))])))
            (game_page (lit "/stats")) (lit "/stats")
            {| children := [dm_message (lit "Welcome.")]; scrollTop := 0 |}
            "%2Fstats" {| json_body := inr (JObject [(lit "type", JString (lit "command"))]) |}
            (JObject [(lit "type", JString (lit "command"))])
            (Json (JString (lit "command"))) Undefined
            eq_refl eq_refl _ eq_refl eq_refl eq_refl eq_refl eq_refl eq_refl _).
  - vm_compute. discriminate.
  - now left.
Defined.

(** X10. A response of type roll or narrative that lacks its text field
    (formatted, response) is not an error: [textContent] is set to
    undefined, and an empty message of the DM is appended. *)
Theorem missing_text_renders_empty env w v l encoded response props :
  playerInput w = Some v -> messageLog w = Some l -> trim v <> [] ->
  encodeURIComponent (trim v) = Some encoded ->
  server env (send_request encoded) = inr response ->
  json_body response = inr (JObject props) ->
  (own_property props (lit "type") = Some (JString (lit "roll"))
   /\ own_property props (lit "formatted") = None)
  \/ (own_property props (lit "type") = Some (JString (lit "narrative"))
      /\ own_property props (lit "response") = None) ->
  console (after_submit env w) = console w
  /\ messages (after_submit env w)
     = children l ++ [player_message (trim v); dm_message []].
Proof.
  intros Hv Hl Ht He Hs Hj Hfield. unfold after_submit.
  rewrite (onSubmit_settled env w v l Hv Hl Ht). unfold settled, exchange, messages.
  rewrite He, Hs, Hj. unfold render_outcome. cbn [get_property].
  destruct Hfield as [[-> ->] | [-> ->]]; cbn [strict_equals];
    rewrite ?bool_decide_eq_false_2 by discriminate;
    rewrite bool_decide_eq_true_2 by reflexivity;
    cbn; now rewrite <- app_assoc.
Qed.

(** The theorem at the response [{"type": "narrative"}]. *)
Lemma missing_text_renders_empty_witness :
  console (after_submit (answering (inr (JObject [(lit "type", JString (lit "narrative"))])))
             (game_page (lit "look")))
  = []
  /\ messages (after_submit (answering (inr (JObject [(lit "type", JString (lit "narrative"))])))
                 (game_page (lit "look")))
     = [dm_message (lit "Welcome.")] ++ [player_message (trim (lit "look")); dm_message []].
Proof.
  refine (missing_text_renders_empty
            (answering (inr (JObject [(lit "type", JString (lit "narrative"))])))
            (game_page (lit "look")) (lit "look")
            {| children := [dm_message (lit "Welcome.")]; scrollTop := 0 |}
            "look" {| json_body := inr (JObject [(lit "type", JString (lit "narrative"))]) |}
            [(lit "type", JString (lit "narrative"))]
            eq_refl eq_refl _ eq_refl eq_refl eq_refl _).
  - vm_compute. discriminate.
  - right. split; reflexivity.
Defined.

(** ** Every page *)

(** X11. Whatever the page and the server, a run sends at most one
    request, and the one it sends is the POST to /send of the encoded,
    trimmed text of the input field. *)
Theorem at_most_one_request env w :
  requests (after_submit env w) = requests w
  \/ exists v encoded,
       playerInput w = Some v
       /\ encodeURIComponent (trim v) = Some encoded
       /\ requests (after_submit env w) = requests w ++ [send_request encoded].
Proof.
  unfold after_submit. destruct (playerInput w) as [v|] eqn:Hv.
  2:{ left. now rewrite (onSubmit_without_input env w Hv). }
  destruct (trim v) as [|c rest] eqn:Ht.
  { left. now rewrite (onSubmit_blank env w v Hv Ht). }
  assert (Hne : trim v <> []) by congruence.
  destruct (messageLog w) as [l|] eqn:Hl.
  2:{ left. now rewrite (onSubmit_without_log env w v Hv Hne Hl). }
  rewrite (onSubmit_settled env w v l Hv Hl Hne). unfold settled. cbn [snd].
  destruct (encodeURIComponent (trim v)) as [encoded|] eqn:He.
  - right. exists v, encoded. split; [reflexivity|]. split; [assumption|].
    destruct (exchange env (trim v)); reflexivity.
  - left. destruct (exchange env (trim v)); reflexivity.
Qed.

Lemma onSubmit_prevented env w :
  onSubmit env (set_defaultPrevented true w) = onSubmit env w.
Proof. unfold onSubmit. unfold mbind at 1 3, JS_bind at 1 3. reflexivity. Qed.

(** X12. Whatever the page and the server, and on every path of the
    handler, the default submission of the form is prevented: the page is
    never reloaded by the form. *)
Theorem default_is_always_prevented env w :
  defaultPrevented (after_submit env w) = true.
Proof.
  unfold after_submit. rewrite <- onSubmit_prevented.
  refine (preserves_onSubmit
            (fun w w' => defaultPrevented w = true -> defaultPrevented w' = true)
            _ _ _ _ _ _ _ _ env (set_defaultPrevented true w) eq_refl).
  - auto.
  - auto.
  - intros m env' w'. unfold messageLog_appendChild. now destruct (messageLog w').
  - intros env' w'. unfold scrollToBottom. now destruct (messageLog w').
  - intros e env' w'. auto.
  - intros env' w'. reflexivity.
  - intros v env' w'. unfold set_playerInput_value. now destruct (playerInput w').
  - intros r env' w'. auto.
Qed.

(** ** Trimming *)

Lemma trimStart_blank s : trimStart s = [] <-> blank s = true.
Proof.
  unfold blank. induction s as [|c s IH]; cbn; [tauto|].
  destruct (is_space c); cbn; [exact IH | split; discriminate].
Qed.

Lemma trimStart_head s c rest : trimStart s = c :: rest -> is_space c = false.
Proof.
  induction s as [|x s IH]; cbn; [discriminate|].
  destruct (is_space x) eqn:Hx; [exact IH | intros [= <- _]; exact Hx].
Qed.

Lemma trimStart_split s : exists spaces, s = spaces ++ trimStart s /\ blank spaces = true.
Proof.
  induction s as [|x s (spaces & Hs & Hb)]; [now exists []|]. cbn.
  destruct (is_space x) eqn:Hx.
  - exists (x :: spaces). split; [cbn; now f_equal|].
    unfold blank in *. cbn. now rewrite Hx.
  - now exists [].
Qed.

Lemma blank_rev s : blank (rev s) = blank s.
Proof.
  unfold blank. induction s as [|c s IH]; [reflexivity|]. cbn.
  rewrite forallb_app, IH. cbn. destruct (is_space c), (forallb is_space s); reflexivity.
Qed.

Lemma trim_blank v : trim v = [] <-> blank v = true.
Proof.
  unfold trim, trimEnd. split.
  - intros H. apply (f_equal (@rev N)) in H. rewrite rev_involutive in H. cbn in H.
    apply trimStart_blank in H. rewrite blank_rev in H.
    destruct (trimStart v) as [|c rest] eqn:Hu; [now apply trimStart_blank|].
    apply trimStart_head in Hu. cbn in H. rewrite Hu in H. discriminate.
  - intros H. apply trimStart_blank in H. rewrite H. reflexivity.
Qed.

(** X13. The trimmed text the handler shows and sends neither begins nor
    ends with white space. *)
Theorem trimmed_text_has_no_outer_space v d :
  trim v <> [] ->
  is_space (hd d (trim v)) = false /\ is_space (List.last (trim v) d) = false.
Proof.
  unfold trim, trimEnd. intros Hne.
  destruct (trimStart_split (rev (trimStart v))) as (spaces & Hrev & Hb).
  destruct (trimStart (rev (trimStart v))) as [|x t] eqn:Ht; [now destruct Hne|].
  pose proof (trimStart_head _ _ _ Ht) as Hx.
  assert (Hu : trimStart v = rev (x :: t) ++ rev spaces).
  { rewrite <- rev_app_distr, <- Hrev. now rewrite rev_involutive. }
  split.
  - destruct (rev (x :: t)) as [|c rest] eqn:Hr.
    { apply (f_equal (@length N)) in Hr. rewrite length_rev in Hr. discriminate. }
    cbn. cbn in Hu. now apply trimStart_head in Hu.
  - cbn [rev]. now rewrite last_last.
Qed.

(** The theorem at the text " /roll 1d20+DEX ". *)
Lemma trimmed_text_has_no_outer_space_witness :
  is_space (hd 0 (trim (lit " /roll 1d20+DEX "))) = false
  /\ is_space (List.last (trim (lit " /roll 1d20+DEX ")) 0) = false.
Proof.
  refine (trimmed_text_has_no_outer_space (lit " /roll 1d20+DEX ") 0 _).
  vm_compute. discriminate.
Defined.

(** X14. On a page with the input field, the handler stops after
    preventing the default exactly when the text of the field is blank:
    made of white space and line ends only, or empty.  Any other text
    changes the page or the console. *)
Theorem noop_exactly_when_blank env w v :
  playerInput w = Some v ->
  (after_submit env w = set_defaultPrevented true w <-> blank v = true).
Proof.
  intros Hv. rewrite <- trim_blank. unfold after_submit. split.
  - intros H. destruct (trim v) as [|c rest] eqn:Ht; [reflexivity|]. exfalso.
    assert (Hne : trim v <> []) by congruence.
    destruct (messageLog w) as [l|] eqn:Hl.
    + rewrite (onSubmit_settled env w v l Hv Hl Hne) in H. cbn [snd] in H.
      apply (f_equal (fun w => length (messages w))) in H.
      unfold settled, messages in H. cbn in H. rewrite Hl in H.
      destruct (encodeURIComponent (trim v)), (exchange env (trim v));
        cbn in H; rewrite ?length_app in H; cbn in H; lia.
    + rewrite (onSubmit_without_log env w v Hv Hne Hl) in H.
      apply (f_equal (fun w => length (console w))) in H. cbn in H.
      rewrite length_app in H. cbn in H. lia.
  - intros Ht. now rewrite (onSubmit_blank env w v Hv Ht).
Qed.

(** The theorem at a field that holds a tab and a no-break space. *)
Lemma noop_exactly_when_blank_witness :
  after_submit (answering (inr roll_response)) (game_page [0x09; 0xA0])
  = set_defaultPrevented true (game_page [0x09; 0xA0])
  <-> blank [0x09; 0xA0] = true.
Proof.
  exact (noop_exactly_when_blank (answering (inr roll_response)) (game_page [0x09; 0xA0])
           [0x09; 0xA0] eq_refl).
Defined.

(** ** The encoded field *)

Lemma chars_app (a b : string) :
  list_ascii_of_string (a ++ b) = list_ascii_of_string a ++ list_ascii_of_string b.
Proof.
  induction a as [|c a IH]; [reflexivity|].
  change (c :: list_ascii_of_string (a ++ b)
          = c :: (list_ascii_of_string a ++ list_ascii_of_string b)).
  now rewrite IH.
Qed.

Lemma hex_digit_safe d : d < 16 -> uri_safe (hex_digit d) = true.
Proof.
  intros H. destruct d as [|p]; [reflexivity|].
  do 4 (destruct p as [p|p|]; try reflexivity); lia.
Qed.

Lemma percent_safe b :
  b < 256 -> Forall (fun a => uri_safe a = true) (list_ascii_of_string (percent b)).
Proof.
  intros H. unfold percent. cbn.
  repeat constructor; apply hex_digit_safe.
  - apply N.Div0.div_lt_upper_bound. lia.
  - now apply N.mod_upper_bound.
Qed.

Lemma percent_all_safe bs :
  Forall (fun b => b < 256) bs ->
  Forall (fun a => uri_safe a = true) (list_ascii_of_string (percent_all bs)).
Proof.
  induction 1 as [|b bs Hb _ IH]; [constructor|].
  cbn [percent_all fold_right]. rewrite chars_app. apply Forall_app. split.
  - now apply percent_safe.
  - exact IH.
Qed.

Lemma utf8_bytes cp : cp < 0x110000 -> Forall (fun b => b < 256) (utf8 cp).
Proof.
  intros H. unfold utf8.
  destruct (N.ltb_spec cp 0x80); [repeat constructor; lia|].
  destruct (N.ltb_spec cp 0x800).
  { assert (cp / 64 < 32) by (apply N.Div0.div_lt_upper_bound; lia).
    assert (cp mod 64 < 64) by now apply N.mod_upper_bound.
    repeat constructor; lia. }
  destruct (N.ltb_spec cp 0x10000).
  { assert (cp / 4096 < 16) by (apply N.Div0.div_lt_upper_bound; lia).
    assert ((cp / 64) mod 64 < 64) by now apply N.mod_upper_bound.
    assert (cp mod 64 < 64) by now apply N.mod_upper_bound.
    repeat constructor; lia. }
  assert (cp / 262144 < 5) by (apply N.Div0.div_lt_upper_bound; lia).
  assert ((cp / 4096) mod 64 < 64) by now apply N.mod_upper_bound.
  assert ((cp / 64) mod 64 < 64) by now apply N.mod_upper_bound.
  assert (cp mod 64 < 64) by now apply N.mod_upper_bound.
  repeat constructor; lia.
Qed.

Lemma unreserved_safe c : uri_unreserved c = true -> uri_safe (ascii_of_N c) = true.
Proof.
  intros H. unfold uri_safe.
  assert (Hc : c < 256).
  { unfold uri_unreserved, between in H.
    repeat (apply orb_prop in H as [H|H]);
      rewrite ?andb_true_iff, ?N.leb_le, ?N.eqb_eq in H; lia. }
  rewrite N_ascii_embedding by exact Hc. now rewrite H.
Qed.

Lemma encoded_is_safe n : forall s enc,
  (length s <= n)%nat -> Forall code_unit s ->
  encodeURIComponent s = Some enc ->
  Forall (fun a => uri_safe a = true) (list_ascii_of_string enc).
Proof.
  induction n as [|n IH]; intros s enc Hn Hs.
  { destruct s; [|cbn in Hn; lia]. intros [= <-]. constructor. }
  destruct s as [|c rest]; [intros [= <-]; constructor|].
  apply Forall_cons_iff in Hs as [Hc Hrest]. cbn in Hn. cbn [encodeURIComponent].
  destruct (uri_unreserved c) eqn:Hu.
  { destruct (encodeURIComponent rest) as [enc'|] eqn:He; [|discriminate].
    intros [= <-]. cbn. constructor; [now apply unreserved_safe|].
    apply (IH rest enc'); [lia | assumption | assumption]. }
  destruct (is_lead_surrogate c) eqn:Hlead.
  { destruct rest as [|d rest']; [discriminate|].
    destruct (is_trail_surrogate d) eqn:Htrail; [|discriminate].
    destruct (encodeURIComponent rest') as [enc'|] eqn:He; [|discriminate].
    intros [= <-]. rewrite chars_app. apply Forall_app. split.
    - apply percent_all_safe, utf8_bytes.
      unfold is_lead_surrogate, is_trail_surrogate, between in Hlead, Htrail.
      rewrite andb_true_iff, !N.leb_le in Hlead, Htrail. lia.
    - apply Forall_cons_iff in Hrest as [_ Hrest'].
      apply (IH rest' enc'); [cbn in Hn; lia | assumption | assumption]. }
  destruct (is_trail_surrogate c); [discriminate|].
  destruct (encodeURIComponent rest) as [enc'|] eqn:He; [|discriminate].
  intros [= <-]. rewrite chars_app. apply Forall_app. split.
  - apply percent_all_safe, utf8_bytes. unfold code_unit in Hc. lia.
  - apply (IH rest enc'); [lia | assumption | assumption].
Qed.

(** X15. The value the handler puts after "player_input=" is made of
    unreserved characters and percent escapes only: whatever the player
    types, no ampersand, equals sign, plus or blank reaches the body, so
    the body is one field of the form. *)
Theorem encoded_field_is_one_field s enc a :
  Forall code_unit s ->
  encodeURIComponent s = Some enc ->
  In a (list_ascii_of_string enc) ->
  uri_safe a = true
  /\ a <> "&"%char /\ a <> "="%char /\ a <> "+"%char /\ a <> " "%char.
Proof.
  intros Hs He Ha.
  pose proof (encoded_is_safe (length s) s enc (Nat.le_refl _) Hs He) as H.
  rewrite List.Forall_forall in H. specialize (H a Ha).
  split; [assumption|]. repeat split; intros ->; discriminate H.
Qed.

(** The theorem at the command "a&b=c d", whose encoded form holds a
    percent sign where the ampersand was. *)
Lemma encoded_field_is_one_field_witness :
  uri_safe "%" = true
  /\ "%"%char <> "&"%char /\ "%"%char <> "="%char /\ "%"%char <> "+"%char
  /\ "%"%char <> " "%char.
Proof.
  refine (encoded_field_is_one_field (lit "a&b=c d") "a%26b%3Dc%20d" "%" _ eq_refl _).
  - unfold code_unit. repeat constructor.
  - cbn. tauto.
Defined.

Lemma Forall_trimStart (P : N -> Prop) s : Forall P s -> Forall P (trimStart s).
Proof.
  intros H. destruct (trimStart_split s) as (spaces & Hs & _).
  rewrite Hs in H. now apply Forall_app in H as [_ H].
Qed.

Lemma Forall_trim (P : N -> Prop) v : Forall P v -> Forall P (trim v).
Proof.
  intros H. unfold trim, trimEnd.
  apply Forall_rev, Forall_trimStart, Forall_rev, Forall_trimStart, H.
Qed.

Lemma encodes_without_surrogates s :
  Forall (fun c => is_surrogate c = false) s ->
  exists enc, encodeURIComponent s = Some enc.
Proof.
  induction 1 as [|c s Hc _ (enc & IH)]; [now exists EmptyString|].
  cbn [encodeURIComponent]. rewrite IH. unfold is_surrogate in Hc.
  apply orb_false_elim in Hc as [-> ->].
  destruct (uri_unreserved c); cbn; eauto.
Qed.

(** X16. A command without surrogate code units is always sent: on a page
    with the input field and the log, when the text is not blank, exactly
    the POST of its encoded, trimmed form leaves, whatever the server
    answers. *)
Theorem plain_command_is_always_sent env w v l :
  playerInput w = Some v -> messageLog w = Some l -> trim v <> [] ->
  Forall (fun c => is_surrogate c = false) v ->
  exists encoded,
    encodeURIComponent (trim v) = Some encoded
    /\ requests (after_submit env w) = requests w ++ [send_request encoded].
Proof.
  intros Hv Hl Ht Hplain.
  destruct (encodes_without_surrogates (trim v)) as [encoded He].
  { now apply Forall_trim. }
  exists encoded. split; [assumption|].
  unfold after_submit. rewrite (onSubmit_settled env w v l Hv Hl Ht).
  unfold settled. cbn [snd]. rewrite He.
  destruct (exchange env (trim v)); reflexivity.
Qed.

(** The theorem at the command "look" and a server that refuses the
    connection. *)
Lemma plain_command_is_always_sent_witness :
  exists encoded,
    encodeURIComponent (trim (lit "look")) = Some encoded
    /\ requests (after_submit {| server := fun _ => inl TypeError;
                                 scrollHeight := fun _ => 0%Z;
                                 scrollTopMax := fun _ => 0%Z |}
                   (game_page (lit "look")))
       = [] ++ [send_request encoded].
Proof.
  refine (plain_command_is_always_sent
            {| server := fun _ => inl TypeError; scrollHeight := fun _ => 0%Z;
              scrollTopMax := fun _ => 0%Z |}
            (game_page (lit "look")) (lit "look")
            {| children := [dm_message (lit "Welcome.")]; scrollTop := 0 |}
            eq_refl eq_refl _ _).
  - vm_compute. discriminate.
  - repeat constructor.
Defined.

(** ** Several submissions in a row *)

(** One typed text, submitted on a page with the input field and the log:
    the request it leads to, the message of the player it leads to, and
    the page still has both elements. *)
Lemma submit_step env v w l v0 :
  playerInput w = Some v0 -> messageLog w = Some l ->
  requests (after_submit env (type_text v w)) = requests w ++ request_of v
  /\ (exists l', messageLog (after_submit env (type_text v w)) = Some l'
        /\ List.filter is_player_message (children l')
           = List.filter is_player_message (children l) ++ echo_of v)
  /\ (exists v', playerInput (after_submit env (type_text v w)) = Some v').
Proof.
  intros Hv0 Hl.
  assert (Hv : playerInput (type_text v w) = Some v)
    by (unfold type_text; now rewrite Hv0).
  assert (Hl' : messageLog (type_text v w) = Some l)
    by (unfold type_text; now rewrite Hv0).
  assert (Hr : requests (type_text v w) = requests w)
    by (unfold type_text; now rewrite Hv0).
  unfold after_submit, request_of, echo_of.
  destruct (trim v) as [|c rest] eqn:Ht.
  - rewrite (onSubmit_blank env _ v Hv Ht). cbn.
    rewrite Hr, Hl', Hv, !app_nil_r.
    split; [reflexivity|]. split; [now exists l | now exists v].
  - assert (Hne : trim v <> []) by congruence.
    rewrite (onSubmit_settled env _ v l Hv Hl' Hne). unfold settled. cbn [snd falsy_string].
    rewrite Ht.
    destruct (encodeURIComponent (c :: rest)), (exchange env (c :: rest));
      cbn; rewrite Hr, ?app_nil_r;
      (split; [reflexivity|]); (split; [|eauto]);
      eexists; (split; [reflexivity|]); cbn;
      rewrite !List.filter_app; cbn; rewrite <- ?app_assoc; reflexivity.
Qed.

(** X17. Over any number of submissions on a page with the input field
    and the log, the server is sent exactly the texts that are not blank
    and can be encoded, each once, trimmed, and in the order they were
    submitted; what the server answers to one has no bearing on the
    next. *)
Theorem session_requests steps : forall w v0 l,
  playerInput w = Some v0 -> messageLog w = Some l ->
  requests (session steps w)
  = requests w ++ flat_map (fun step => request_of (fst step)) steps.
Proof.
  unfold session.
  induction steps as [|[v env] steps IH]; intros w v0 l Hv0 Hl; cbn.
  { now rewrite app_nil_r. }
  destruct (submit_step env v w l v0 Hv0 Hl) as (Hr & (l' & Hl' & _) & (v' & Hv')).
  rewrite (IH _ v' l' Hv' Hl'), Hr. now rewrite <- app_assoc.
Qed.

(** The theorem at three submissions: a roll, a blank text, and a look
    that the server fails to answer. *)
Lemma session_requests_witness :
  requests (session [(lit "/roll 1d20", answering (inr roll_response));
                     (lit "  ", answering (inr roll_response));
                     (lit "look", answering (inl SyntaxError))]
              (game_page []))
  = [] ++ [send_request "%2Froll%201d20"; send_request "look"].
Proof.
  exact (session_requests [(lit "/roll 1d20", answering (inr roll_response));
                           (lit "  ", answering (inr roll_response));
                           (lit "look", answering (inl SyntaxError))]
           (game_page []) [] {| children := [dm_message (lit "Welcome.")]; scrollTop := 0 |}
           eq_refl eq_refl).
Defined.

(** X18. Over any number of submissions on a page with the input field
    and the log, the messages of the player in the log are the ones that
    were there followed by the texts submitted that are not blank,
    trimmed, in order: every command is echoed once, whether or not it
    could be sent or was answered. *)
Theorem session_echoes steps : forall w v0 l,
  playerInput w = Some v0 -> messageLog w = Some l ->
  exists l', messageLog (session steps w) = Some l'
    /\ List.filter is_player_message (children l')
       = List.filter is_player_message (children l)
         ++ flat_map (fun step => echo_of (fst step)) steps.
Proof.
  unfold session.
  induction steps as [|[v env] steps IH]; intros w v0 l Hv0 Hl; cbn.
  { exists l. now rewrite app_nil_r. }
  destruct (submit_step env v w l v0 Hv0 Hl) as (_ & (l1 & Hl1 & Hf1) & (v' & Hv')).
  destruct (IH _ v' l1 Hv' Hl1) as (l' & Hl' & Hf).
  exists l'. split; [assumption|]. now rewrite Hf, Hf1, <- app_assoc.
Qed.

(** The theorem at the same three submissions. *)
Lemma session_echoes_witness :
  exists l',
    messageLog (session [(lit "/roll 1d20", answering (inr roll_response));
                         (lit "  ", answering (inr roll_response));
                         (lit "look", answering (inl SyntaxError))]
                  (game_page []))
    = Some l'
    /\ List.filter is_player_message (children l')
       = [] ++ [player_message (lit "/roll 1d20"); player_message (lit "look")].
Proof.
  exact (session_echoes [(lit "/roll 1d20", answering (inr roll_response));
                         (lit "  ", answering (inr roll_response));
                         (lit "look", answering (inl SyntaxError))]
           (game_page []) [] {| children := [dm_message (lit "Welcome.")]; scrollTop := 0 |}
           eq_refl eq_refl).
Defined.

(** ** The message log *)

(** X19. On every path of the handler (early return, rendered, dropped or
    reported response, rejection) and whatever the server does, the
    message log the handler leaves is the one it found followed by the
    messages it appended: no message is removed, replaced or moved.  A
    page without a log still has none. *)
Theorem message_log_only_grows :
  (forall env w l,
     messageLog w = Some l ->
     exists l' added,
       messageLog (after_submit env w) = Some l'
       /\ children l' = children l ++ added
       /\ forall i m, children l !! i = Some m -> children l' !! i = Some m)
  /\ (forall env w,
        messageLog w = None -> messageLog (after_submit env w) = None).
Proof.
  split.
  - intros env w l Hl. pose proof (onSubmit_log_extends env w) as H.
    unfold log_extends in H. fold (after_submit env w) in H. rewrite Hl in H.
    destruct (messageLog (after_submit env w)) as [l'|]; [|contradiction].
    destruct H as [added H]. exists l', added. split; [reflexivity|]. split; [assumption|].
    intros i m Hm. rewrite H. now apply lookup_app_l_Some.
  - intros env w Hl. pose proof (onSubmit_log_extends env w) as H.
    unfold log_extends in H. fold (after_submit env w) in H. rewrite Hl in H.
    now destruct (messageLog (after_submit env w)).
Qed.

End HandlerFacts.
